(** * AdaRRT: a rapidly-exploring random tree planner (adarrt.py)

    Shallow embedding of the planner class of [adarrt.py] and of the
    fragment of Python and NumPy it runs on:

    - joint configurations are one-dimensional float64 arrays, modelled
      as lists of IEEE binary64 numbers ([PrimFloat.float]);
    - [Node] objects live in a heap (a list of records addressed by
      position), so that parent back-references and the children lists
      that [add_child] mutates are shared as they are in Python;
    - a call may return, raise, or (for the two [while] loops) fail to
      finish: this is the type [outcome];
    - the global NumPy random generator is an explicit stream of raw
      draws from [0,1). *)

From Stdlib Require Import ZArith Floats Lia.
From stdpp Require Import base option list sorting.

Set Warnings "-inexact-float".
Set Default Proof Using "Type".

(** ** Outcomes of a call *)

Inductive exn : Set :=
| ValueError.

Inductive outcome (A : Type) : Type :=
| Ok (a : A)
| Raise (e : exn)
| Diverge.

Arguments Ok {A} a.
Arguments Raise {A} e.
Arguments Diverge {A}.

Definition obind {A B : Type} (m : outcome A) (k : A -> outcome B) : outcome B :=
  match m with
  | Ok a => k a
  | Raise e => Raise e
  | Diverge => Diverge
  end.

Notation "x <-- m ;; k" := (obind m (fun x => k))
  (at level 100, m at next level, right associativity,
   format "'[v' x  <--  m  ;;  '/' k ']'").

(** ** Comparing binary64 numbers

    [<=] and [<] of Python on floats, as propositions, and being a number
    (anything but NaN). *)

Definition fle (x y : float) : Prop := (x <=? y)%float = true.
Definition flt (x y : float) : Prop := (x <? y)%float = true.
Definition number (x : float) : Prop := is_nan x = false.

(** ** The NumPy fragment *)

Module Np.

(** A one-dimensional float64 array. *)
Definition ndarray : Type := list float.

(** Element-wise binary operation on two one-dimensional arrays, with
    NumPy's broadcasting rule: equal lengths, or one operand of length
    one which is stretched; anything else raises [ValueError]. *)
Definition broadcast (op : float -> float -> float) (a b : ndarray) : outcome ndarray :=
  if decide (length a = length b) then Ok (zip_with op a b)
  else match a, b with
       | [x], _ => Ok (map (op x) b)
       | _, [y] => Ok (map (fun x => op x y) a)
       | _, _ => Raise ValueError
       end.

Definition sub : ndarray -> ndarray -> outcome ndarray := broadcast PrimFloat.sub.
Definition add : ndarray -> ndarray -> outcome ndarray := broadcast PrimFloat.add.

(** Array divided, respectively multiplied, by a scalar. *)
Definition div_scalar (a : ndarray) (s : float) : ndarray := map (fun x => (x / s)%float) a.
Definition mul_scalar (a : ndarray) (s : float) : ndarray := map (fun x => (x * s)%float) a.

(** [np.linalg.norm] of a one-dimensional array: the square root of the
    sum of the squares, here summed from left to right.  (The order in
    which NumPy adds the squares is not fixed by the program; the examples
    below that turn on a rounding use arrays with at most one non-zero
    entry, for which every order gives the same sum.) *)
Definition sumsq (a : ndarray) : float := fold_left (fun acc x => (acc + x * x)%float) a 0%float.
Definition norm (a : ndarray) : float := PrimFloat.sqrt (sumsq a).

(** The global random generator: a stream of raw draws from [0,1) and
    the position of the next one. *)
Record rng : Type := mkRng { stream : nat -> float; cursor : nat }.

Definition random_sample (g : rng) : float * rng :=
  (stream g (cursor g), mkRng (stream g) (S (cursor g))).

(** [np.random.uniform(low, high)] is [low + (high - low) * u]. *)
Definition uniform (low high : float) (g : rng) : float * rng :=
  let (u, g') := random_sample g in ((low + (high - low) * u)%float, g').

(** [np.random.uniform(low, high, size=n)]. *)
Fixpoint uniform_size (low high : float) (n : nat) (g : rng) : ndarray * rng :=
  match n with
  | O => ([], g)
  | S n' =>
      let (x, g1) := uniform low high g in
      let (xs, g2) := uniform_size low high n' g1 in
      (x :: xs, g2)
  end.

End Np.

(** ** Python values accepted for the two joint-limit arguments *)

Inductive pyarg : Type :=
| PyNone
| PyList (l : list float)
| PyArray (a : Np.ndarray).

(** Truth value, as [or] evaluates it: [None] and the empty list are
    false; an array of size zero is false (the NumPy of this Python 2
    program warns and answers false), of size one it has the truth value
    of its element, and of any larger size the test raises. *)
Definition truth (v : pyarg) : outcome bool :=
  match v with
  | PyNone => Ok false
  | PyList l => Ok (match l with [] => false | _ => true end)
  | PyArray a =>
      match a with
      | [] => Ok false
      | [x] => Ok (negb (x =? 0)%float)
      | _ => Raise ValueError
      end
  end.

Definition elements (v : pyarg) : list float :=
  match v with
  | PyNone => []
  | PyList l => l
  | PyArray a => a
  end.

(** [v or default], for a [default] that is an array. *)
Definition py_or (v : pyarg) (default : Np.ndarray) : outcome (list float) :=
  b <-- truth v ;;
  Ok (if b then elements v else default).

(** [min(iterable, key=key)]: the first element is the candidate, and a
    later one replaces it when its key is strictly smaller. *)
Fixpoint min_from {A : Type} (key : A -> outcome float) (best : A) (kbest : float)
    (l : list A) : outcome A :=
  match l with
  | [] => Ok best
  | x :: l' =>
      kx <-- key x ;;
      if (kx <? kbest)%float then min_from key x kx l' else min_from key best kbest l'
  end.

Definition py_min {A : Type} (key : A -> outcome float) (l : list A) : outcome A :=
  match l with
  | [] => Raise ValueError
  | x :: l' => kx <-- key x ;; min_from key x kx l'
  end.

(** Every key of the list is computed without exception and is a number. *)
Definition keyed {A : Type} (key : A -> outcome float) (l : list A) : Prop :=
  forall x, x ∈ l -> exists k, key x = Ok k /\ number k.

(** ** The planner *)

Module AdaRRT.

Definition joint_lower_limits : Np.ndarray :=
  [(-3.14)%float; 1.57%float; 0.33%float; (-3.14)%float; 0%float; 0%float].
Definition joint_upper_limits : Np.ndarray :=
  [3.14%float; 5.00%float; 5.00%float; 3.14%float; 3.14%float; 3.14%float].

(** *** Nodes and the heap they live in *)

Abbreviation ref := nat.

Record Node : Type := mkNode {
  state : Np.ndarray;
  parent : option ref;
  children : list ref
}.

Abbreviation heap := (list Node).

Definition deref (h : heap) (r : ref) : Node :=
  default (mkNode [] None []) (h !! r).

(** [Node(state, parent)] allocates a fresh object. *)
Definition Node__init__ (h : heap) (st : Np.ndarray) (par : option ref) : ref * heap :=
  (length h, h ++ [mkNode st par []]).

(** [self.add_child(state)]. *)
Definition add_child (h : heap) (self : ref) (st : Np.ndarray) : ref * heap :=
  let (child, h1) := Node__init__ h st (Some self) in
  (child, alter (fun n => mkNode (state n) (parent n) (children n ++ [child])) self h1).

(** The [while nodelist] loop of [Node.__iter__]; the result is the
    sequence of nodes yielded. *)
Fixpoint iter_loop (fuel : nat) (h : heap) (nodelist : list ref) : outcome (list ref) :=
  match nodelist with
  | [] => Ok []
  | node :: rest =>
      match fuel with
      | O => Diverge
      | S fuel' =>
          yielded <-- iter_loop fuel' h (rest ++ children (deref h node)) ;;
          Ok (node :: yielded)
      end
  end.

Definition Node__iter__ (h : heap) (self : ref) : outcome (list ref) :=
  iter_loop (length h) h [self].

(** *** The planner object *)

(** The instance attributes.  [lower_limits] and [upper_limits] are
    [self.joint_lower_limits] and [self.joint_upper_limits]; the names
    [joint_lower_limits] and [joint_upper_limits] stay with the class
    attributes above.  [self.ada] is only handed on to the collision
    constraint, which is modelled with it applied: a function from
    configurations to booleans. *)
Record t : Type := mkAdaRRT {
  start : ref;
  goal : ref;
  lower_limits : list float;
  upper_limits : list float;
  ada_collision_constraint : option (Np.ndarray -> bool);
  step_size : float;
  goal_precision : float;
  max_iter : Z
}.

Definition __init__ (start_state goal_state : Np.ndarray)
    (joint_lower_limits_arg joint_upper_limits_arg : pyarg)
    (constraint : option (Np.ndarray -> bool))
    (step goal_prec : float) (iters : Z) : outcome (t * heap) :=
  let (s, h1) := Node__init__ [] start_state None in
  let (g, h2) := Node__init__ h1 goal_state None in
  lo <-- py_or joint_lower_limits_arg joint_lower_limits ;;
  hi <-- py_or joint_upper_limits_arg joint_upper_limits ;;
  Ok (mkAdaRRT s g lo hi constraint step goal_prec iters, h2).

Section Methods.

Variable self : t.

Fixpoint uniform_each (bounds : list (float * float)) (g : Np.rng) : Np.ndarray * Np.rng :=
  match bounds with
  | [] => ([], g)
  | (low, high) :: bounds' =>
      let (x, g1) := Np.uniform low high g in
      let (xs, g2) := uniform_each bounds' g1 in
      (x :: xs, g2)
  end.

Definition _get_random_sample (g : Np.rng) : Np.ndarray * Np.rng :=
  uniform_each (zip (lower_limits self) (upper_limits self)) g.

Definition _get_random_sample_near_goal (h : heap) (g : Np.rng)
    : outcome Np.ndarray * Np.rng :=
  let goal_state := state (deref h (goal self)) in
  let (jitter, g') := Np.uniform_size (-0.05)%float 0.05%float (length goal_state) g in
  (Np.add goal_state jitter, g').

Definition distance_to (h : heap) (sample : Np.ndarray) (node : ref) : outcome float :=
  d <-- Np.sub (state (deref h node)) sample ;;
  Ok (Np.norm d).

Definition _get_nearest_neighbor (h : heap) (sample : Np.ndarray) : outcome ref :=
  nodes <-- Node__iter__ h (start self) ;;
  py_min (distance_to h sample) nodes.

Definition _check_for_collision (sample : Np.ndarray) : bool :=
  match ada_collision_constraint self with
  | None => false
  | Some is_satisfied => negb (is_satisfied sample)
  end.

Definition candidate (sample neighbor_state : Np.ndarray) : outcome Np.ndarray :=
  direction <-- Np.sub sample neighbor_state ;;
  let direction := Np.div_scalar direction (Np.norm direction) in
  Np.add neighbor_state (Np.mul_scalar direction (step_size self)).

Definition _extend_sample (h : heap) (sample : Np.ndarray) (neighbor : ref)
    : outcome (option ref * heap) :=
  new_node <-- candidate sample (state (deref h neighbor)) ;;
  if negb (_check_for_collision new_node)
  then let (child, h') := add_child h neighbor new_node in Ok (Some child, h')
  else Ok (None, h).

Definition _check_for_completion (h : heap) (node : ref) : outcome bool :=
  d <-- Np.sub (state (deref h node)) (state (deref h (goal self))) ;;
  Ok (Np.norm d <? goal_precision self)%float.

(** The [while node is not None] loop of [_trace_path_from_start]:
    the states collected, terminal node first. *)
Fixpoint trace_loop (fuel : nat) (h : heap) (node : option ref) : outcome (list Np.ndarray) :=
  match node with
  | None => Ok []
  | Some n =>
      match fuel with
      | O => Diverge
      | S fuel' =>
          path <-- trace_loop fuel' h (parent (deref h n)) ;;
          Ok (state (deref h n) :: path)
      end
  end.

Definition _trace_path_from_start (h : heap) (node : option ref)
    : outcome (list Np.ndarray) :=
  let node := match node with None => goal self | Some n => n end in
  path <-- trace_loop (length h) h (Some node) ;;
  Ok (reverse path).

(** *** [build] *)

(** What one call of [build] leaves behind: its result ([Ok None] is
    Python's [None], returned after the failure message is printed),
    the heap, and the number of passes of the loop it entered. *)
Record run : Type := mkRun {
  result : outcome (option (list Np.ndarray));
  final_heap : heap;
  iterations : nat
}.

(** One pass through the body of the [for] loop, in two parts: the
    sample is drawn, then the tree is grown towards it.  The heap that
    comes back is the heap as the pass leaves it, also when the pass
    raises after a node was attached. *)
Definition draw (h : heap) (g : Np.rng) : outcome Np.ndarray * Np.rng :=
  let (coin, g1) := Np.uniform 0%float 1%float g in
  if (coin <=? 0.2)%float
  then _get_random_sample_near_goal h g1
  else let (s, g') := _get_random_sample g1 in (Ok s, g').

Definition attempt (h : heap) (sample : Np.ndarray)
    : outcome (option (list Np.ndarray)) * heap :=
  match (neighbor <-- _get_nearest_neighbor h sample ;;
         _extend_sample h sample neighbor) with
  | Ok (Some new_node, h') =>
      (finished <-- _check_for_completion h' new_node ;;
       if (finished : bool)
       then path <-- _trace_path_from_start h' (Some new_node) ;; Ok (Some path)
       else Ok None,
       h')
  | Ok (None, h') => (Ok None, h')
  | Raise e => (Raise e, h)
  | Diverge => (Diverge, h)
  end.

Definition body (h : heap) (g : Np.rng)
    : outcome (option (list Np.ndarray)) * heap * Np.rng :=
  let (sample, g') := draw h g in
  match sample with
  | Ok sample => (attempt h sample, g')
  | Raise e => (Raise e, h, g')
  | Diverge => (Diverge, h, g')
  end.

Fixpoint build_loop (remaining : nat) (h : heap) (g : Np.rng) (entered : nat) : run :=
  match remaining with
  | O => mkRun (Ok None) h entered
  | S remaining' =>
      match body h g with
      | (Ok (Some path), h', _) => mkRun (Ok (Some path)) h' (S entered)
      | (Ok None, h', g') => build_loop remaining' h' g' (S entered)
      | (Raise e, h', _) => mkRun (Raise e) h' (S entered)
      | (Diverge, h', _) => mkRun Diverge h' (S entered)
      end
  end.

Definition build (h : heap) (g : Np.rng) : run :=
  build_loop (Z.to_nat (max_iter self)) h g 0.

End Methods.

(** *** Shape of the heap a planner works on

    [__init__] allocates the root first and the stand-alone goal node
    second; every later node is allocated by [add_child]. *)

Definition root_ref : ref := 0.
Definition goal_ref : ref := 1.

Definition tree_node (h : heap) (r : ref) : Prop := r < length h /\ r <> goal_ref.

Record tree_inv (h : heap) : Prop := mk_tree_inv {
  inv_size : 2 <= length h;
  inv_parent : forall i p,
    parent (deref h i) = Some p -> p < i /\ p <> goal_ref /\ i <> goal_ref;
  inv_has_parent : forall i, 2 <= i < length h -> is_Some (parent (deref h i));
  inv_children : forall p c, c ∈ children (deref h p) <-> parent (deref h c) = Some p;
  inv_children_nodup : forall p, NoDup (children (deref h p))
}.

Definition consistent (self : t) (h : heap) : Prop :=
  start self = root_ref /\ goal self = goal_ref /\ tree_inv h.

(** The nodes met when following parent references from a node until
    a node without parent. *)
Inductive walk (h : heap) : ref -> list ref -> Prop :=
| walk_root n : parent (deref h n) = None -> walk h n [n]
| walk_step n p l : parent (deref h n) = Some p -> walk h p l -> walk h n (n :: l).

(** The heaps a planner goes through: the one [__init__] leaves, and
    the one left by each pass of the loop of [build] (nearest neighbour
    of some sample, then extension towards it). *)
Inductive snapshot (self : t) : heap -> Prop :=
| snapshot_init start_state goal_state lo hi h :
    __init__ start_state goal_state lo hi (ada_collision_constraint self)
      (step_size self) (goal_precision self) (max_iter self) = Ok (self, h) ->
    snapshot self h
| snapshot_extend h sample neighbor new_node h' :
    snapshot self h ->
    _get_nearest_neighbor self h sample = Ok neighbor ->
    _extend_sample self h sample neighbor = Ok (new_node, h') ->
    snapshot self h'.

(** State of the loop of [Node.__iter__]: the nodes yielded so far and
    the pending list. *)
Record loop_inv (h : heap) (out q : list ref) : Prop := mk_loop_inv {
  li_nodup : NoDup (out ++ q);
  li_nodes : forall x, x ∈ out ++ q -> tree_node h x;
  li_parent : forall c p, c ∈ out ++ q -> parent (deref h c) = Some p -> p ∈ out;
  li_closed : forall c p, p ∈ out -> parent (deref h c) = Some p -> c ∈ out ++ q
}.

(** A path is traced from a node when it lists, root first, the states
    of the nodes that the parent references lead through. *)
Definition traced (h : heap) (terminal : ref) (nodes : list ref)
    (path : list Np.ndarray) : Prop :=
  walk h terminal nodes /\ NoDup nodes /\ last nodes = Some root_ref /\
  path = reverse ((fun i => state (deref h i)) <$> nodes).

(** Every node that has a parent was placed by an extension from that
    parent, towards some sample, and passed the collision test. *)
Definition extended (self : t) (h : heap) : Prop :=
  forall i p, parent (deref h i) = Some p ->
    exists sample,
      candidate self sample (state (deref h p)) = Ok (state (deref h i)) /\
      _check_for_collision self (state (deref h i)) = false.

(** The facts about a returned path, collected. *)
Definition path_facts (self : t) (h : heap) (s g : Np.ndarray)
    (path : list Np.ndarray) : Prop :=
  exists terminal nodes d,
    traced h terminal nodes path /\
    _check_for_completion self h terminal = Ok true /\
    head path = Some s /\
    last path = Some (state (deref h terminal)) /\
    Np.sub (state (deref h terminal)) g = Ok d /\
    flt (Np.norm d) (goal_precision self) /\
    2 <= length path /\
    (forall pre a b post, path = pre ++ a :: b :: post ->
       exists sample, candidate self sample a = Ok b /\
                      _check_for_collision self b = false).

(** Number of parent references between a node and the node without
    parent that they lead to. *)
Fixpoint depth_loop (fuel : nat) (h : heap) (n : ref) : nat :=
  match fuel with
  | O => 0
  | S fuel' =>
      match parent (deref h n) with
      | None => 0
      | Some p => S (depth_loop fuel' h p)
      end
  end.

Definition depth (h : heap) (n : ref) : nat := depth_loop (length h) h n.

(** None of the nodes created before position [upto] passes the
    termination check. *)
Definition none_finished (self : t) (h : heap) (upto : nat) : Prop :=
  forall i, 2 <= i < upto -> _check_for_completion self h i = Ok false.

(** Order of the nodes by depth, and the state of the pending list of
    [Node.__iter__]: ordered by depth and spanning at most two levels. *)
Definition shallower (h : heap) (a b : ref) : Prop := depth h a <= depth h b.

Definition pending (h : heap) (q : list ref) : Prop :=
  StronglySorted (shallower h) q /\
  forall a b, a ∈ q -> b ∈ q -> depth h b <= S (depth h a).

(** A node descends from [n] when the parent references lead from it
    through [n] (a node descends from itself). *)
Definition descends (h : heap) (n x : ref) : Prop :=
  exists nodes, walk h x nodes /\ n ∈ nodes.

(** State of the loop of [Node.__iter__] started at [n]. *)
Record subtree_inv (h : heap) (n : ref) (out q : list ref) : Prop := mk_subtree_inv {
  si_nodup : NoDup (out ++ q);
  si_nodes : forall x, x ∈ out ++ q -> n <= x < length h /\ descends h n x;
  si_parent : forall c, c ∈ out ++ q -> c <> n ->
    exists p, parent (deref h c) = Some p /\ p ∈ out;
  si_closed : forall c p, p ∈ out -> parent (deref h c) = Some p -> c ∈ out ++ q
}.

(** The same planner with other joint limits. *)
Definition with_limits (self : t) (lo hi : list float) : t :=
  mkAdaRRT (start self) (goal self) lo hi (ada_collision_constraint self)
    (step_size self) (goal_precision self) (max_iter self).

(** All states of the heap, and the two limit vectors, have [n] entries. *)
Definition dimension (self : t) (h : heap) (n : nat) : Prop :=
  length (lower_limits self) = n /\ length (upper_limits self) = n /\
  forall i, i < length h -> length (state (deref h i)) = n.

End AdaRRT.

(** ** Configurations used as examples *)

Module Scenario.
Import AdaRRT.

(** A one-joint arm: start 0.1, goal 0.3, joint range [0, 2], no
    collision constraint, default step size and goal precision. *)
Definition rounding_planner : t :=
  mkAdaRRT 0 1 [0%float] [2%float] None 0.25 1 10000.
Definition rounding_heap : heap :=
  [mkNode [0.1%float] None []; mkNode [0.3%float] None []].

(** A generator whose raw draws are all one half. *)
Definition halves : Np.rng := Np.mkRng (fun _ => 0.5%float) 0.

(** The heap of the one-joint arm after the first pass of [build]. *)
Definition rounding_final : heap :=
  [mkNode [0.1%float] None [2]; mkNode [0.3%float] None [];
   mkNode [0.35%float] (Some 0) []].

(** The six-joint arm with the class-default limits, start and goal both
    at the origin, default step size, goal precision and iteration cap. *)
Definition origin : Np.ndarray := [0%float; 0%float; 0%float; 0%float; 0%float; 0%float].
Definition origin_planner : t :=
  mkAdaRRT 0 1 joint_lower_limits joint_upper_limits None 0.25 1 10000.
Definition origin_heap : heap := [mkNode origin None []; mkNode origin None []].


(** A one-joint arm at 0 whose first sample was its own start state:
    the planner, the heap [__init__] leaves, and the heap after that
    first extension. *)
Definition stuck_planner : t := mkAdaRRT 0 1 [0%float] [2%float] None 0.25 1 1.
Definition stuck_heap : heap := [mkNode [0%float] None []; mkNode [5%float] None []].
Definition stuck_grown : heap :=
  [mkNode [0%float] None [2]; mkNode [5%float] None []; mkNode [nan] (Some 0) []].

(** A generator whose raw draws alternate between one half and zero. *)
Definition alternating : Np.rng :=
  Np.mkRng (fun n => if Nat.even n then 0.5%float else 0%float) 0.

(** The arm of [main], without its collision constraint. *)
Definition arm_home : Np.ndarray :=
  [(-1.5)%float; 3.22%float; 1.23%float; (-2.19)%float; 1.8%float; 1.2%float].
Definition goal_config : Np.ndarray :=
  [(-1.72)%float; 4.44%float; 2.02%float; (-2.04)%float; 2.66%float; 1.39%float].
Definition arm_planner : t :=
  mkAdaRRT 0 1 joint_lower_limits joint_upper_limits None 0.25 0.2 10000.
Definition arm_heap : heap := [mkNode arm_home None []; mkNode goal_config None []].




(** A three-joint start state, a two-joint goal state and the
    class-default limits for six joints. *)
Definition mismatched_planner : t :=
  mkAdaRRT 0 1 joint_lower_limits joint_upper_limits None 0.25 1 3.
Definition mismatched_heap : heap :=
  [mkNode [0%float; 0%float; 0%float] None []; mkNode [1%float; 1%float] None []].

End Scenario.

(** * Properties *)

(** ** Ordering of binary64 numbers *)

Module FloatOrder.

Ltac sf_cases :=
  repeat match goal with
  | |- context [(?a ?= ?b)%Z] => destruct (Z.compare_spec a b); subst
  | |- context [PosDef.Pos.compare_cont Eq ?a ?b] =>
      change (PosDef.Pos.compare_cont Eq a b) with (Pos.compare a b);
      destruct (Pos.compare_spec a b); subst
  | H : context [(?a ?= ?b)%Z] |- _ => destruct (Z.compare_spec a b); subst
  | H : context [PosDef.Pos.compare_cont Eq ?a ?b] |- _ =>
      change (PosDef.Pos.compare_cont Eq a b) with (Pos.compare a b) in H;
      destruct (Pos.compare_spec a b); subst
  end;
  simpl in *; try discriminate; try reflexivity; try lia.

Lemma SFcompare_refl (a : spec_float) : a <> S754_nan -> SFcompare a a = Some Eq.
Proof.
  destruct a as [[]|[]| |[] m e]; simpl; try congruence; intros _; f_equal.
  all: rewrite Z.compare_refl; change (PosDef.Pos.compare_cont Eq m m) with (Pos.compare m m);
    rewrite Pos.compare_refl; reflexivity.
Qed.

Lemma SF_total (a b : spec_float) :
  a <> S754_nan -> b <> S754_nan -> SFltb a b = false -> SFleb b a = true.
Proof.
  unfold SFltb, SFleb.
  destruct a as [[]|[]| |[] m1 e1], b as [[]|[]| |[] m2 e2]; simpl;
    try congruence; intros _ _; sf_cases.
Qed.

Lemma SF_lt_le (a b : spec_float) : SFltb a b = true -> SFleb a b = true.
Proof.
  unfold SFltb, SFleb. destruct (SFcompare a b) as [[]|]; congruence.
Qed.

Lemma SF_lt_le_trans (a b c : spec_float) :
  SFltb a b = true -> SFleb b c = true -> SFltb a c = true.
Proof.
  unfold SFltb, SFleb.
  destruct a as [[]|[]| |[] m1 e1], b as [[]|[]| |[] m2 e2], c as [[]|[]| |[] m3 e3];
    simpl; try congruence; intros H1 H2; sf_cases.
Qed.

Lemma SF_le_trans (a b c : spec_float) :
  SFleb a b = true -> SFleb b c = true -> SFleb a c = true.
Proof.
  unfold SFleb.
  destruct a as [[]|[]| |[] m1 e1], b as [[]|[]| |[] m2 e2], c as [[]|[]| |[] m3 e3];
    simpl; try congruence; intros H1 H2; sf_cases.
Qed.

Lemma number_spec (x : float) : number x <-> Prim2SF x <> S754_nan.
Proof.
  unfold number, is_nan. rewrite FloatAxioms.eqb_spec. unfold SFeqb. split.
  - intros H E. rewrite E in H. discriminate.
  - intros H. rewrite SFcompare_refl by assumption. reflexivity.
Qed.

Lemma fle_refl (x : float) : number x -> fle x x.
Proof.
  intros H%number_spec. unfold fle. rewrite FloatAxioms.leb_spec. unfold SFleb.
  rewrite SFcompare_refl by assumption. reflexivity.
Qed.

Lemma not_flt_fle (x y : float) :
  number x -> number y -> (x <? y)%float = false -> fle y x.
Proof.
  intros Hx%number_spec Hy%number_spec. unfold fle.
  rewrite FloatAxioms.ltb_spec, FloatAxioms.leb_spec. apply SF_total; assumption.
Qed.

Lemma flt_fle (x y : float) : flt x y -> fle x y.
Proof. unfold flt, fle. rewrite FloatAxioms.ltb_spec, FloatAxioms.leb_spec. apply SF_lt_le. Qed.

Lemma flt_fle_trans (x y z : float) : flt x y -> fle y z -> flt x z.
Proof. unfold flt, fle. rewrite !FloatAxioms.ltb_spec, !FloatAxioms.leb_spec. apply SF_lt_le_trans. Qed.

Lemma fle_trans (x y z : float) : fle x y -> fle y z -> fle x z.
Proof. unfold fle. rewrite !FloatAxioms.leb_spec. apply SF_le_trans. Qed.

Lemma flt_number_l (x y : float) : flt x y -> number x.
Proof.
  unfold flt. rewrite FloatAxioms.ltb_spec. intros H. apply number_spec. intros E.
  rewrite E in H. discriminate.
Qed.

End FloatOrder.

(** ** The heap *)

Module HeapFacts.
Import AdaRRT.

Lemma deref_outside (h : heap) (i : ref) : length h <= i -> deref h i = mkNode [] None [].
Proof. intros H. unfold deref. rewrite (lookup_ge_None_2 h i) by lia. reflexivity. Qed.

Lemma parent_inside (h : heap) (i p : ref) : parent (deref h i) = Some p -> i < length h.
Proof.
  intros H. destruct (decide (i < length h)) as [|N]; [assumption|].
  rewrite deref_outside in H by lia. discriminate.
Qed.

Lemma add_child_length (h : heap) (p : ref) (st : Np.ndarray) :
  length (add_child h p st).2 = S (length h).
Proof. unfold add_child, Node__init__. simpl. rewrite length_alter, length_app. simpl. lia. Qed.

Lemma deref_add_child (h : heap) (p : ref) (st : Np.ndarray) (i : ref) :
  p < length h ->
  deref (add_child h p st).2 i =
    if decide (i = length h) then mkNode st (Some p) []
    else if decide (i = p)
         then mkNode (state (deref h p)) (parent (deref h p))
                (children (deref h p) ++ [length h])
         else deref h i.
Proof.
  intros Hp. unfold add_child, Node__init__, deref. simpl.
  destruct (decide (i = length h)) as [->|Hi].
  - rewrite list_lookup_alter_ne by lia.
    rewrite lookup_app_r by lia. rewrite Nat.sub_diag. reflexivity.
  - destruct (decide (i = p)) as [->|Hip].
    + rewrite list_lookup_alter_eq, lookup_app_l by lia.
      destruct (lookup_lt_is_Some_2 h p Hp) as [n ->]. reflexivity.
    + rewrite list_lookup_alter_ne by congruence.
      destruct (decide (i < length h)).
      * rewrite lookup_app_l by lia. reflexivity.
      * rewrite (lookup_ge_None_2 h i) by lia.
        rewrite (lookup_ge_None_2 (h ++ _) i) by (rewrite length_app; simpl; lia).
        reflexivity.
Qed.

Lemma state_add_child_old (h : heap) (p : ref) (st : Np.ndarray) (i : ref) :
  p < length h -> i <> length h ->
  state (deref (add_child h p st).2 i) = state (deref h i).
Proof.
  intros Hp Hi. rewrite deref_add_child by assumption.
  destruct (decide (i = length h)); [contradiction|].
  destruct (decide (i = p)) as [->|]; reflexivity.
Qed.

Lemma tree_inv_add_child (h : heap) (p : ref) (st : Np.ndarray) :
  tree_inv h -> tree_node h p -> tree_inv (add_child h p st).2.
Proof.
  intros [Hsz Hpar Hhas Hch Hnd] [Hp Hpg]. split.
  - rewrite add_child_length. lia.
  - intros i q. rewrite deref_add_child by assumption.
    destruct (decide (i = length h)) as [->|Hi]; simpl.
    + intros [= <-]. unfold goal_ref in *. lia.
    + destruct (decide (i = p)) as [->|]; simpl; apply Hpar.
  - intros i Hi. rewrite add_child_length in Hi. rewrite deref_add_child by assumption.
    destruct (decide (i = length h)) as [->|Hne]; simpl; [eauto|].
    destruct (decide (i = p)) as [->|]; simpl; apply Hhas; lia.
  - intros q c. rewrite !deref_add_child by assumption.
    destruct (decide (c = length h)) as [->|Hc]; simpl.
    + destruct (decide (q = length h)) as [->|Hq]; simpl.
      * split; [inversion 1|]. intros [= ->]. lia.
      * destruct (decide (q = p)) as [->|Hqp]; simpl.
        -- rewrite elem_of_app, list_elem_of_singleton. tauto.
        -- split.
           ++ intros Hin%Hch. apply parent_inside in Hin. lia.
           ++ intros [= ->]. contradiction.
    + assert (parent (if decide (c = p)
                      then mkNode (state (deref h p)) (parent (deref h p))
                             (children (deref h p) ++ [length h])
                      else deref h c) = parent (deref h c)) as ->
        by (destruct (decide (c = p)) as [->|]; reflexivity).
      destruct (decide (q = length h)) as [->|Hq]; simpl.
      * split; [inversion 1|]. intros Hin. apply Hpar in Hin as Hlt.
        apply parent_inside in Hin. lia.
      * destruct (decide (q = p)) as [->|Hqp]; simpl; [|apply Hch].
        rewrite elem_of_app, list_elem_of_singleton, Hch. intuition congruence.
  - intros q. rewrite deref_add_child by assumption.
    destruct (decide (q = length h)); simpl; [constructor|].
    destruct (decide (q = p)) as [->|]; simpl; [|apply Hnd].
    apply NoDup_app. split; [apply Hnd|]. split; [|apply NoDup_singleton].
    intros x Hx ->%list_elem_of_singleton. apply Hch, parent_inside in Hx. lia.
Qed.

End HeapFacts.

(** ** Breadth-first iteration *)

Module IterFacts.
Import AdaRRT HeapFacts.

Section Iter.

Variable h : heap.
Hypothesis Hinv : tree_inv h.

Lemma tree_nodes_bounded (l : list ref) :
  NoDup l -> (forall x, x ∈ l -> tree_node h x) -> S (length l) <= length h.
Proof using Hinv.
  intros Hnd Hall. pose proof (inv_size h Hinv) as Hsz.
  assert (l ⊆+ 0 :: seq 2 (length h - 2)) as Hsub.
  { apply NoDup_submseteq; [assumption|]. intros x [Hx Hg]%Hall.
    unfold goal_ref in Hg. destruct (decide (x = 0)) as [->|]; [left|].
    right. apply elem_of_seq. lia. }
  apply submseteq_length in Hsub. simpl in Hsub. rewrite length_seq in Hsub. lia.
Qed.

Lemma loop_inv_step (out rest : list ref) (x : ref) :
  loop_inv h out (x :: rest) ->
  loop_inv h (out ++ [x]) (rest ++ children (deref h x)).
Proof using Hinv.
  intros [Hnd Hnodes Hpar Hclosed].
  assert (forall c, c ∈ children (deref h x) -> c ∉ out ++ x :: rest) as Hfresh.
  { intros c Hc%(inv_children h Hinv) Hin.
    pose proof (Hpar c x Hin Hc) as Hx.
    apply NoDup_app in Hnd as (_ & Hdisj & _). apply (Hdisj x Hx). left. }
  split.
  - replace ((out ++ [x]) ++ rest ++ children (deref h x))
      with ((out ++ x :: rest) ++ children (deref h x))
      by (rewrite <- !app_assoc; reflexivity).
    apply NoDup_app. split; [assumption|]. split.
    + intros y Hy Hc. exact (Hfresh y Hc Hy).
    + apply (inv_children_nodup h Hinv).
  - intros y. rewrite <- (assoc_L (++)). simpl.
    rewrite elem_of_app, elem_of_cons, elem_of_app. intros [Hy|[->|[Hy|Hy]]].
    + apply Hnodes. apply elem_of_app. auto.
    + apply Hnodes. apply elem_of_app. right. left.
    + apply Hnodes. apply elem_of_app. right. right. assumption.
    + apply (inv_children h Hinv) in Hy as Hp. split.
      * eapply parent_inside; eassumption.
      * apply (inv_parent h Hinv) in Hp. tauto.
  - intros c p. rewrite <- (assoc_L (++)). simpl.
    rewrite elem_of_app, elem_of_cons, !elem_of_app, list_elem_of_singleton.
    intros [Hc|[->|[Hc|Hc]]] Hp.
    + left. apply (Hpar c p); [apply elem_of_app; auto|assumption].
    + left. apply (Hpar x p); [apply elem_of_app; right; left|assumption].
    + left. apply (Hpar c p); [apply elem_of_app; right; right; assumption|assumption].
    + apply (inv_children h Hinv) in Hc. right. congruence.
  - intros c p. rewrite !elem_of_app, !list_elem_of_singleton. intros [Hp| ->] Hc.
    + pose proof (Hclosed c p Hp Hc) as Hin.
      apply elem_of_app in Hin as [Hin|Hin]; [tauto|].
      apply elem_of_cons in Hin as [->|Hin]; tauto.
    + right. right. apply (inv_children h Hinv). assumption.
Qed.

Lemma iter_loop_inv (fuel : nat) :
  forall out q, loop_inv h out q -> length h <= S (fuel + length out) ->
  exists l, iter_loop fuel h q = Ok l /\ loop_inv h (out ++ l) [] /\
            (forall x, x ∈ q -> x ∈ l).
Proof using Hinv.
  induction fuel as [|fuel IH]; intros out q HJ Hfuel.
  - destruct q as [|x rest].
    + exists []. simpl. rewrite app_nil_r. split; [reflexivity|]. split; [assumption|].
      intros x Hx. inversion Hx.
    + exfalso. pose proof (tree_nodes_bounded _ (li_nodup _ _ _ HJ) (li_nodes _ _ _ HJ)) as Hb.
      rewrite length_app in Hb. simpl in *. lia.
  - destruct q as [|x rest].
    + exists []. simpl. rewrite app_nil_r. split; [reflexivity|]. split; [assumption|].
      intros x Hx. inversion Hx.
    + destruct (IH (out ++ [x]) (rest ++ children (deref h x)) (loop_inv_step _ _ _ HJ))
        as (l & Hl & HJ' & Hsub).
      { rewrite length_app. simpl. lia. }
      exists (x :: l). simpl. rewrite Hl. simpl. split; [reflexivity|]. split.
      * rewrite <- (assoc_L (++)) in HJ'. exact HJ'.
      * intros y [->|Hy]%elem_of_cons; [left|]. right. apply Hsub, elem_of_app. auto.
Qed.

(** Enough fuel: the loop ends, and more fuel changes nothing. *)
Lemma iter_loop_more_fuel (fuel : nat) :
  forall q l extra, iter_loop fuel h q = Ok l -> iter_loop (fuel + extra) h q = Ok l.
Proof.
  induction fuel as [|fuel IH]; intros q l extra H; destruct q as [|x rest]; simpl in *.
  - destruct extra; exact H.
  - discriminate.
  - exact H.
  - destruct (iter_loop fuel h (rest ++ children (deref h x))) as [l'| |] eqn:E;
      simpl in H; try discriminate.
    injection H as <-. rewrite (IH _ _ extra E). reflexivity.
Qed.

(** Iterating from the root yields every node of the tree exactly once,
    the root first, and never the stand-alone goal node. *)
Lemma Node__iter__root :
  exists l, Node__iter__ h root_ref = Ok (root_ref :: l) /\
            NoDup (root_ref :: l) /\
            (forall x, x ∈ root_ref :: l <-> tree_node h x).
Proof using Hinv.
  pose proof (inv_size h Hinv) as Hsz.
  assert (loop_inv h [] [root_ref]) as HJ.
  { split; simpl.
    - apply NoDup_singleton.
    - intros x ->%list_elem_of_singleton. unfold tree_node, root_ref, goal_ref. lia.
    - intros c p ->%list_elem_of_singleton Hp.
      apply (inv_parent h Hinv) in Hp. unfold root_ref in Hp. lia.
    - intros c p Hp. inversion Hp. }
  destruct (iter_loop_inv (length h) [] [root_ref] HJ) as (l & Hl & HJ' & Hsub);
    [simpl; lia|].
  unfold Node__iter__. simpl in HJ'.
  destruct HJ' as [Hnd Hnodes _ Hclosed]. rewrite app_nil_r in Hnd.
  setoid_rewrite app_nil_r in Hnodes. setoid_rewrite app_nil_r in Hclosed.
  destruct (length h) as [|n] eqn:En; [lia|]. simpl in Hl.
  destruct (iter_loop n h (children (deref h root_ref))) as [l'| |] eqn:E;
    simpl in Hl; try discriminate.
  injection Hl as <-. exists l'. simpl. rewrite E. simpl.
  split; [reflexivity|]. split; [exact Hnd|].
  intros x. split; [apply Hnodes|].
  intros [Hx Hg]. clear E Hsub HJ En.
  induction x as [x IHx] using lt_wf_ind.
  destruct (decide (x = 0)) as [->|Hx0]; [left|].
  destruct (inv_has_parent h Hinv x) as [p Hp]; [unfold goal_ref in Hg; lia|].
  pose proof (inv_parent h Hinv x p Hp) as (Hlt & Hpg & _).
  assert (p ∈ root_ref :: l') as Hin by (apply IHx; [lia|lia|assumption]).
  exact (Hclosed x p Hin Hp).
Qed.

End Iter.

End IterFacts.

(** ** [min] with a key *)

Module MinFacts.
Import FloatOrder.

Section Min.

Context {A : Type}.
Variable key : A -> outcome float.

Lemma keyed_cons (x : A) (l : list A) :
  keyed key (x :: l) -> (exists k, key x = Ok k /\ number k) /\ keyed key l.
Proof.
  intros H. split; [apply H; left|]. intros y Hy. apply H. right. assumption.
Qed.

Lemma min_from_spec (l : list A) :
  forall best kbest, number kbest -> keyed key l ->
  exists r kr, min_from key best kbest l = Ok r /\
    ((r = best /\ kr = kbest /\ forall x k, x ∈ l -> key x = Ok k -> fle kbest k)
     \/ (exists l1 l2, l = l1 ++ r :: l2 /\ key r = Ok kr /\ flt kr kbest /\
           (forall x k, x ∈ l1 -> key x = Ok k -> flt kr k) /\
           (forall x k, x ∈ l2 -> key x = Ok k -> fle kr k))).
Proof.
  induction l as [|x l IH]; intros best kbest Hb Hk.
  - exists best, kbest. split; [reflexivity|]. left. repeat split.
    intros x k Hx. inversion Hx.
  - apply keyed_cons in Hk as [(kx & Ekx & Hkx) Hk]. simpl. rewrite Ekx. simpl.
    destruct (kx <? kbest)%float eqn:Hlt.
    + destruct (IH x kx Hkx Hk) as (r & kr & Er & Hcase).
      exists r, kr. split; [exact Er|]. right.
      destruct Hcase as [(-> & -> & Hall)|Hin].
      * exists [], l. repeat split; try assumption. intros y k Hy. inversion Hy.
      * destruct Hin as (l1 & l2 & -> & Ekr & Hkr & H1 & H2).
        exists (x :: l1), l2. repeat split; try assumption.
        -- eapply flt_fle_trans; [exact Hkr|]. apply flt_fle. exact Hlt.
        -- intros y k [->|Hy]%elem_of_cons Ey; [|eauto]. congruence.
    + pose proof (not_flt_fle kx kbest Hkx Hb Hlt) as Hle.
      destruct (IH best kbest Hb Hk) as (r & kr & Er & Hcase).
      exists r, kr. split; [exact Er|].
      destruct Hcase as [(-> & -> & Hall)|Hin].
      * left. repeat split. intros y k [->|Hy]%elem_of_cons Ey; [|eauto]. congruence.
      * right. destruct Hin as (l1 & l2 & -> & Ekr & Hkr & H1 & H2).
        exists (x :: l1), l2. repeat split; try assumption.
        intros y k [->|Hy]%elem_of_cons Ey; [|eauto].
        replace k with kx by congruence. eapply flt_fle_trans; eassumption.
Qed.

(** [min] returns the first element whose key is minimal: the keys
    before it are strictly greater, the keys after it are not smaller. *)
Lemma py_min_spec (l : list A) :
  l <> [] -> keyed key l ->
  exists r kr l1 l2, py_min key l = Ok r /\ l = l1 ++ r :: l2 /\ key r = Ok kr /\
    number kr /\
    (forall x k, x ∈ l1 -> key x = Ok k -> flt kr k) /\
    (forall x k, x ∈ l2 -> key x = Ok k -> fle kr k).
Proof.
  destruct l as [|x l]; [congruence|]. intros _ Hk.
  apply keyed_cons in Hk as [(kx & Ekx & Hkx) Hk]. simpl. rewrite Ekx. simpl.
  destruct (min_from_spec l x kx Hkx Hk) as (r & kr & Er & [(-> & -> & Hall)|Hin]).
  - exists x, kx, [], l. repeat split; try assumption. intros y k Hy. inversion Hy.
  - destruct Hin as (l1 & l2 & -> & Ekr & Hkr & H1 & H2).
    exists r, kr, (x :: l1), l2. repeat split; try assumption.
    + eapply flt_number_l. exact Hkr.
    + intros y k [->|Hy]%elem_of_cons Ey; [|eauto]. congruence.
Qed.

End Min.

End MinFacts.

(** ** The planner's heap stays a tree *)

Module PlannerFacts.
Import AdaRRT HeapFacts IterFacts.

Lemma min_from_elem {A : Type} (key : A -> outcome float) (l : list A) :
  forall best kbest r, min_from key best kbest l = Ok r -> r = best \/ r ∈ l.
Proof.
  induction l as [|x l IH]; intros best kbest r; simpl.
  - intros [= ->]. left. reflexivity.
  - destruct (key x) as [kx| |]; simpl; try discriminate.
    destruct (kx <? kbest)%float; intros [->|H]%IH; auto; right; solve [left | right; assumption].
Qed.

Lemma py_min_elem {A : Type} (key : A -> outcome float) (l : list A) (r : A) :
  py_min key l = Ok r -> r ∈ l.
Proof.
  destruct l as [|x l]; simpl; [discriminate|].
  destruct (key x) as [kx| |]; simpl; try discriminate.
  intros [->|H]%min_from_elem; [left | right; assumption].
Qed.

Lemma truth_raises (v : pyarg) :
  truth v = Raise ValueError <-> exists a, v = PyArray a /\ 2 <= length a.
Proof.
  split.
  - destruct v as [|l|[|x [|y a]]]; simpl; try discriminate.
    intros _. eexists. split; [reflexivity|]. simpl. lia.
  - intros (a & -> & Ha). destruct a as [|x [|y a]]; simpl in *; try lia. reflexivity.
Qed.

Lemma truth_not_diverge (v : pyarg) : truth v <> Diverge.
Proof. destruct v as [|l|[|x [|y a]]]; discriminate. Qed.

Lemma tree_inv_initial (s g : Np.ndarray) : tree_inv [mkNode s None []; mkNode g None []].
Proof.
  split.
  - simpl. lia.
  - intros [|[|i]] p; simpl; discriminate.
  - intros i. simpl. lia.
  - intros [|[|p]] [|[|c]]; simpl; split; solve [inversion 1 | discriminate].
  - intros [|[|p]]; simpl; constructor.
Qed.

Lemma init_inv (s g : Np.ndarray) (lo hi : pyarg) (c : option (Np.ndarray -> bool))
    (st pr : float) (it : Z) (self : t) (h : heap) :
  __init__ s g lo hi c st pr it = Ok (self, h) ->
  h = [mkNode s None []; mkNode g None []] /\
  start self = root_ref /\ goal self = goal_ref /\
  ada_collision_constraint self = c /\ step_size self = st /\
  goal_precision self = pr /\ max_iter self = it.
Proof.
  unfold __init__. simpl.
  destruct (py_or lo joint_lower_limits) as [l| |]; simpl; try discriminate.
  destruct (py_or hi joint_upper_limits) as [u| |]; simpl; try discriminate.
  intros [= <- <-]. simpl. repeat split.
Qed.

Lemma init_consistent (s g : Np.ndarray) (lo hi : pyarg) (c : option (Np.ndarray -> bool))
    (st pr : float) (it : Z) (self : t) (h : heap) :
  __init__ s g lo hi c st pr it = Ok (self, h) -> consistent self h.
Proof.
  intros (-> & Hs & Hg & _)%init_inv.
  split; [assumption|]. split; [assumption|]. apply tree_inv_initial.
Qed.

Section Planner.

Variable self : t.

Lemma nearest_tree_node (h : heap) (sample : Np.ndarray) (r : ref) :
  consistent self h -> _get_nearest_neighbor self h sample = Ok r -> tree_node h r.
Proof.
  intros (Hs & _ & Hinv). unfold _get_nearest_neighbor. rewrite Hs.
  destruct (Node__iter__root h Hinv) as (l & -> & _ & Hl).
  unfold obind at 1. intros Hr%py_min_elem. apply Hl. exact Hr.
Qed.

(** What an extension does to the heap: nothing, or one [add_child]. *)
Lemma extend_cases (h : heap) (sample : Np.ndarray) (nb : ref) (r : option ref) (h' : heap) :
  _extend_sample self h sample nb = Ok (r, h') ->
  exists cand, candidate self sample (state (deref h nb)) = Ok cand /\
    ((_check_for_collision self cand = true /\ r = None /\ h' = h) \/
     (_check_for_collision self cand = false /\ r = Some (length h) /\
      h' = (add_child h nb cand).2)).
Proof.
  unfold _extend_sample.
  destruct (candidate self sample (state (deref h nb))) as [cand| |]; simpl;
    try discriminate.
  intros H. exists cand. split; [reflexivity|].
  destruct (_check_for_collision self cand); simpl in H; injection H as <- <-; auto.
Qed.

Lemma extend_consistent (h : heap) (sample : Np.ndarray) (nb : ref) (r : option ref)
    (h' : heap) :
  consistent self h -> tree_node h nb ->
  _extend_sample self h sample nb = Ok (r, h') -> consistent self h'.
Proof.
  intros (Hs & Hg & Hinv) Hnb (cand & _ & [(_ & _ & ->)|(_ & _ & ->)])%extend_cases.
  - split; [assumption|]. split; assumption.
  - split; [assumption|]. split; [assumption|]. apply tree_inv_add_child; assumption.
Qed.

Lemma snapshot_consistent (h : heap) : snapshot self h -> consistent self h.
Proof.
  induction 1 as [s g lo hi h Hinit | h sample nb r h' _ IH Hnn Hext].
  - eapply init_consistent. exact Hinit.
  - eapply extend_consistent; [exact IH| |exact Hext].
    eapply nearest_tree_node; eassumption.
Qed.

End Planner.

End PlannerFacts.

(** ** Tracing a path back to the root *)

Module TraceFacts.
Import AdaRRT HeapFacts.

Section Trace.

Variable h : heap.
Hypothesis Hinv : tree_inv h.

Lemma walk_head (n : ref) (nodes : list ref) :
  walk h n nodes -> exists l, nodes = n :: l.
Proof. destruct 1; eauto. Qed.

Lemma walk_adjacent (n : ref) (nodes : list ref) :
  walk h n nodes ->
  forall l1 a b l2, nodes = l1 ++ a :: b :: l2 -> parent (deref h a) = Some b.
Proof.
  induction 1 as [n Hn | n p l Hp Hw IH]; intros l1 a b l2 E.
  - destruct l1 as [|x [|y l1]]; discriminate.
  - destruct l1 as [|x l1]; simpl in E.
    + injection E as -> ->. apply walk_head in Hw as (l' & [= <- _]). exact Hp.
    + injection E as _ ->. eapply IH. reflexivity.
Qed.

Lemma trace_loop_None (fuel : nat) : trace_loop fuel h None = Ok [].
Proof. destruct fuel; reflexivity. Qed.

Lemma trace_loop_walk (fuel : nat) :
  forall n, n < fuel ->
  exists nodes, walk h n nodes /\
    trace_loop fuel h (Some n) = Ok ((fun i => state (deref h i)) <$> nodes) /\
    NoDup nodes /\ (forall x, x ∈ nodes -> x <= n) /\
    (tree_node h n -> last nodes = Some root_ref).
Proof using Hinv.
  induction fuel as [|fuel IH]; intros n Hn; [lia|].
  simpl. destruct (parent (deref h n)) as [p|] eqn:Hp.
  - pose proof (inv_parent h Hinv n p Hp) as (Hlt & Hpg & Hng).
    destruct (IH p) as (nodes & Hw & -> & Hnd & Hle & Hlast); [lia|].
    exists (n :: nodes). simpl. split; [econstructor; eassumption|].
    split; [reflexivity|]. split; [|split].
    + apply NoDup_cons. split; [|assumption]. intros Hin%Hle. lia.
    + intros x [->|Hx%Hle]%elem_of_cons; lia.
    + intros _. apply walk_head in Hw as Hh. destruct Hh as (l & ->).
      rewrite last_cons_cons. apply Hlast. split; [|assumption].
      apply parent_inside in Hp. lia.
  - exists [n]. rewrite trace_loop_None. simpl.
    split; [constructor; assumption|]. split; [reflexivity|].
    split; [apply NoDup_singleton|]. split.
    + intros x ->%list_elem_of_singleton. lia.
    + intros [Hlen Hg]. destruct (decide (n = 0)) as [->|]; [reflexivity|].
      destruct (inv_has_parent h Hinv n) as [q Hq]; [unfold goal_ref in Hg; lia|].
      congruence.
Qed.

(** Tracing from a node of the tree ends, at the root. *)
Lemma trace_path_traced (self : t) (n : ref) :
  tree_node h n ->
  exists nodes path, _trace_path_from_start self h (Some n) = Ok path /\
    traced h n nodes path.
Proof using Hinv.
  intros Hn. destruct (trace_loop_walk (length h) n) as (nodes & Hw & E & Hnd & _ & Hl);
    [apply Hn|].
  exists nodes, (reverse ((fun i => state (deref h i)) <$> nodes)).
  unfold _trace_path_from_start. rewrite E. simpl. split; [reflexivity|].
  split; [assumption|]. split; [assumption|]. split; [auto|reflexivity].
Qed.

End Trace.

End TraceFacts.

(** ** The loop of [build] *)

Module BuildFacts.
Import AdaRRT HeapFacts IterFacts PlannerFacts TraceFacts.

Lemma broadcast_not_diverge (op : float -> float -> float) (a b : Np.ndarray) :
  Np.broadcast op a b <> Diverge.
Proof.
  unfold Np.broadcast. destruct (decide (length a = length b)); [discriminate|].
  destruct a as [|x [|y a]], b as [|z [|w b]]; discriminate.
Qed.

Lemma min_from_not_diverge {A : Type} (key : A -> outcome float) (l : list A) :
  (forall x, key x <> Diverge) ->
  forall best kbest, min_from key best kbest l <> Diverge.
Proof.
  intros Hkey. induction l as [|x l IH]; intros best kbest; simpl; [discriminate|].
  specialize (Hkey x). destruct (key x) as [kx| |]; simpl; try congruence.
  destruct (kx <? kbest)%float; apply IH.
Qed.

Lemma py_min_not_diverge {A : Type} (key : A -> outcome float) (l : list A) :
  (forall x, key x <> Diverge) -> py_min key l <> Diverge.
Proof.
  intros Hkey. destruct l as [|x l]; simpl; [discriminate|].
  pose proof (Hkey x) as Hx. destruct (key x) as [kx| |]; simpl; try congruence.
  apply min_from_not_diverge. assumption.
Qed.

Section Build.

Variable self : t.

Lemma distance_to_not_diverge (h : heap) (sample : Np.ndarray) (x : ref) :
  distance_to h sample x <> Diverge.
Proof.
  unfold distance_to, Np.sub.
  pose proof (broadcast_not_diverge PrimFloat.sub (state (deref h x)) sample) as H.
  destruct (Np.broadcast PrimFloat.sub (state (deref h x)) sample); simpl; congruence.
Qed.

Lemma candidate_not_diverge (sample st : Np.ndarray) : candidate self sample st <> Diverge.
Proof.
  unfold candidate, Np.sub, Np.add.
  pose proof (broadcast_not_diverge PrimFloat.sub sample st) as H.
  destruct (Np.broadcast PrimFloat.sub sample st); simpl; try congruence.
  apply broadcast_not_diverge.
Qed.

Lemma extended_initial (s g : Np.ndarray) :
  extended self [mkNode s None []; mkNode g None []].
Proof. intros [|[|i]] p; simpl; discriminate. Qed.

Lemma extended_add_child (h : heap) (sample cand : Np.ndarray) (nb : ref) :
  tree_inv h -> extended self h -> nb < length h ->
  candidate self sample (state (deref h nb)) = Ok cand ->
  _check_for_collision self cand = false ->
  extended self (add_child h nb cand).2.
Proof.
  intros Hinv Hext Hnb Hcand Hcol i p.
  rewrite (deref_add_child h nb cand i) by assumption.
  destruct (decide (i = length h)) as [->|Hi]; cbn [parent state].
  - intros [= <-]. exists sample.
    rewrite state_add_child_old by (assumption || lia). split; assumption.
  - intros Hp.
    assert (parent (deref h i) = Some p) as Hp'
      by (destruct (decide (i = nb)) as [->|]; exact Hp).
    assert (state (if decide (i = nb)
                   then mkNode (state (deref h nb)) (parent (deref h nb))
                          (children (deref h nb) ++ [length h])
                   else deref h i) = state (deref h i)) as ->
      by (destruct (decide (i = nb)) as [->|]; reflexivity).
    destruct (Hext i p Hp') as (s & Hs & Hc). exists s.
    rewrite state_add_child_old; [split; assumption|assumption|].
    apply parent_inside in Hp' as Hi'. apply (inv_parent h Hinv) in Hp'. lia.
Qed.

Lemma snapshot_extended (h : heap) : snapshot self h -> extended self h.
Proof.
  induction 1 as [s g lo hi h Hinit | h sample nb r h' Hsnap IH Hnn Hext].
  - apply init_inv in Hinit as (-> & _). apply extended_initial.
  - apply snapshot_consistent in Hsnap as Hcons.
    pose proof (nearest_tree_node self h sample nb Hcons Hnn) as [Hnb _].
    apply extend_cases in Hext as (cand & Hcand & [(_ & _ & ->)|(Hcol & _ & ->)]).
    + exact IH.
    + eapply extended_add_child; try eassumption. apply Hcons.
Qed.

Lemma nearest_not_diverge (h : heap) (sample : Np.ndarray) :
  consistent self h -> _get_nearest_neighbor self h sample <> Diverge.
Proof.
  intros (Hs & _ & Hinv). unfold _get_nearest_neighbor. rewrite Hs.
  destruct (Node__iter__root h Hinv) as (l & -> & _). unfold obind at 1.
  apply py_min_not_diverge. intros x. apply distance_to_not_diverge.
Qed.

Lemma extend_not_diverge (h : heap) (sample : Np.ndarray) (nb : ref) :
  _extend_sample self h sample nb <> Diverge.
Proof.
  unfold _extend_sample.
  pose proof (candidate_not_diverge sample (state (deref h nb))) as H.
  destruct (candidate self sample (state (deref h nb))) as [cand| |]; simpl;
    try congruence.
  destruct (negb (_check_for_collision self cand)); discriminate.
Qed.

Lemma completion_not_diverge (h : heap) (node : ref) :
  _check_for_completion self h node <> Diverge.
Proof.
  unfold _check_for_completion, Np.sub.
  pose proof (broadcast_not_diverge PrimFloat.sub (state (deref h node))
                (state (deref h (goal self)))) as H.
  destruct (Np.broadcast PrimFloat.sub (state (deref h node))
              (state (deref h (goal self)))); simpl; congruence.
Qed.

Lemma extend_new_node (h : heap) (sample : Np.ndarray) (nb t : ref) (h' : heap) :
  consistent self h -> tree_node h nb ->
  _extend_sample self h sample nb = Ok (Some t, h') ->
  t = length h /\ length h' = S (length h) /\ tree_node h' t.
Proof.
  intros (_ & _ & Hinv) Hnb (cand & _ & [(_ & [=] & _)|(_ & [= ->] & ->)])%extend_cases.
  pose proof (inv_size h Hinv) as Hsz.
  unfold tree_node, goal_ref. rewrite add_child_length.
  split; [reflexivity|]. split; [reflexivity|]. lia.
Qed.

Lemma attempt_inv (h : heap) (sample : Np.ndarray) (res : option (list Np.ndarray))
    (h' : heap) :
  snapshot self h -> attempt self h sample = (Ok res, h') ->
  snapshot self h' /\
  match res with
  | None => True
  | Some path =>
      exists nodes, length h' = S (length h) /\
        _check_for_completion self h' (length h) = Ok true /\
        traced h' (length h) nodes path
  end.
Proof.
  intros Hsnap. unfold attempt.
  destruct (_get_nearest_neighbor self h sample) as [nb| |] eqn:Hnn; simpl;
    try discriminate.
  destruct (_extend_sample self h sample nb) as [[r h1]| |] eqn:Hext; simpl;
    try discriminate.
  assert (snapshot self h1) as Hsnap1 by (eapply snapshot_extend; eassumption).
  destruct r as [t|]; [|intros [= <- <-]; split; [assumption|exact I]].
  intros [= Hres <-].
  destruct (_check_for_completion self h1 t) as [[]| |] eqn:Hc; simpl in Hres;
    try discriminate; [|injection Hres as <-; split; [assumption|exact I]].
  destruct (_trace_path_from_start self h1 (Some t)) as [path| |] eqn:Ht; simpl in Hres;
    try discriminate.
  injection Hres as <-. split; [assumption|].
  apply snapshot_consistent in Hsnap as Hcons.
  pose proof (nearest_tree_node self h sample nb Hcons Hnn) as Hnb.
  destruct (extend_new_node h sample nb t h1 Hcons Hnb Hext) as (-> & Hlen & Hnode).
  apply snapshot_consistent in Hsnap1 as (_ & _ & Hinv1).
  destruct (trace_path_traced h1 Hinv1 self (length h) Hnode) as (nodes & path' & E & Htr).
  exists nodes. split; [assumption|]. split; [assumption|]. congruence.
Qed.

(** Whatever its outcome, a pass leaves a heap the planner can be in. *)
Lemma attempt_snapshot (h : heap) (sample : Np.ndarray) :
  snapshot self h -> snapshot self (attempt self h sample).2.
Proof.
  intros Hsnap. unfold attempt.
  destruct (_get_nearest_neighbor self h sample) as [nb| |] eqn:Hnn; simpl;
    try assumption.
  destruct (_extend_sample self h sample nb) as [[r h1]| |] eqn:Hext; simpl;
    try assumption.
  assert (snapshot self h1) as Hsnap1 by (eapply snapshot_extend; eassumption).
  destruct r as [t|]; simpl; assumption.
Qed.

Lemma attempt_not_diverge (h : heap) (sample : Np.ndarray) :
  snapshot self h -> (attempt self h sample).1 <> Diverge.
Proof.
  intros Hsnap. apply snapshot_consistent in Hsnap as Hcons. unfold attempt.
  pose proof (nearest_not_diverge h sample Hcons) as Hnn'.
  destruct (_get_nearest_neighbor self h sample) as [nb| |] eqn:Hnn; simpl;
    try congruence.
  pose proof (extend_not_diverge h sample nb) as Hext'.
  destruct (_extend_sample self h sample nb) as [[r h1]| |] eqn:Hext; simpl;
    try congruence.
  destruct r as [t|]; simpl; [|discriminate].
  pose proof (completion_not_diverge h1 t) as Hc'.
  destruct (_check_for_completion self h1 t) as [[]| |] eqn:Hc; simpl; try congruence.
  pose proof (nearest_tree_node self h sample nb Hcons Hnn) as Hnb.
  destruct (extend_new_node h sample nb t h1 Hcons Hnb Hext) as (-> & Hlen & Hnode).
  assert (snapshot self h1) as (_ & _ & Hinv1)%snapshot_consistent
    by (eapply snapshot_extend; eassumption).
  destruct (trace_path_traced h1 Hinv1 self (length h) Hnode) as (nodes & path' & -> & _).
  discriminate.
Qed.

Lemma draw_not_diverge (h : heap) (g : Np.rng) : (draw self h g).1 <> Diverge.
Proof.
  unfold draw. destruct (Np.uniform 0 1 g) as [coin g1].
  destruct (coin <=? 0.2)%float.
  - unfold _get_random_sample_near_goal.
    destruct (Np.uniform_size _ _ _ g1) as [jitter g']. simpl.
    apply broadcast_not_diverge.
  - destruct (_get_random_sample self g1) as [s g']. discriminate.
Qed.

Lemma body_cases (h : heap) (g : Np.rng) :
  exists sample g', draw self h g = (sample, g') /\
    body self h g =
      (match sample with
       | Ok sample => attempt self h sample
       | Raise e => (Raise e, h)
       | Diverge => (Diverge, h)
       end, g').
Proof.
  unfold body. destruct (draw self h g) as [[sample| |] g']; eauto.
Qed.

(** What a run of the loop leaves: a heap the planner can be in, a
    count of passes within the bound, and a result that is a traced path
    ending at the newest node, or [None] once the passes are used up. *)
Lemma build_loop_spec (k : nat) :
  forall h g e, snapshot self h ->
  let r := build_loop self k h g e in
  snapshot self (final_heap r) /\ e <= iterations r <= e + k /\
  match result r with
  | Ok None => iterations r = e + k
  | Ok (Some path) =>
      exists terminal nodes,
        length (final_heap r) = S terminal /\ 2 <= terminal /\
        _check_for_completion self (final_heap r) terminal = Ok true /\
        traced (final_heap r) terminal nodes path
  | Raise _ => True
  | Diverge => False
  end.
Proof.
  induction k as [|k IH]; intros h g e Hsnap; simpl.
  - split; [assumption|]. split; lia.
  - destruct (body_cases h g) as (sample & g' & Hd & ->).
    pose proof (draw_not_diverge h g) as Hdraw. rewrite Hd in Hdraw. simpl in Hdraw.
    destruct sample as [sample| |]; simpl.
    + pose proof (attempt_not_diverge h sample Hsnap) as Hnd.
      pose proof (attempt_snapshot h sample Hsnap) as Hsnap'.
      destruct (attempt self h sample) as [[[path|]| |] h'] eqn:Hatt; simpl in *.
      * apply attempt_inv in Hatt as (_ & nodes & Hlen & Hc & Htr); [|assumption].
        split; [assumption|]. split; [lia|].
        exists (length h), nodes. split; [assumption|]. split; [|split; assumption].
        apply snapshot_consistent in Hsnap as (_ & _ & Hinv). apply (inv_size h Hinv).
      * destruct (IH h' g' (S e) Hsnap') as (H1 & H2 & H3).
        split; [assumption|]. split; [lia|].
        destruct (result (build_loop self k h' g' (S e))) as [[path|]| |];
          try assumption. lia.
      * split; [assumption|]. split; [lia|exact I].
      * congruence.
    + split; [assumption|]. split; [lia|exact I].
    + congruence.
Qed.

End Build.

End BuildFacts.

(** ** Matching dimensions: no exception *)

Module DimensionFacts.
Import AdaRRT HeapFacts IterFacts PlannerFacts TraceFacts BuildFacts.

Lemma broadcast_same (op : float -> float -> float) (a b : Np.ndarray) :
  length a = length b ->
  Np.broadcast op a b = Ok (zip_with op a b) /\ length (zip_with op a b) = length a.
Proof.
  intros E. unfold Np.broadcast. destruct (decide (length a = length b)); [|contradiction].
  split; [reflexivity|]. rewrite length_zip_with. lia.
Qed.

Lemma uniform_size_length (low high : float) (n : nat) :
  forall g, length (Np.uniform_size low high n g).1 = n.
Proof.
  induction n as [|n IH]; intros g; [reflexivity|]. cbn [Np.uniform_size].
  destruct (Np.uniform low high g) as [x g1]. specialize (IH g1).
  destruct (Np.uniform_size low high n g1) as [xs g2]. simpl in *. lia.
Qed.

Lemma uniform_each_length (bounds : list (float * float)) :
  forall g, length (uniform_each bounds g).1 = length bounds.
Proof.
  induction bounds as [|[low high] bounds IH]; intros g; [reflexivity|].
  cbn [uniform_each]. destruct (Np.uniform low high g) as [x g1]. specialize (IH g1).
  destruct (uniform_each bounds g1) as [xs g2]. simpl in *. lia.
Qed.

Lemma min_from_ok {A : Type} (key : A -> outcome float) (l : list A) :
  (forall x, x ∈ l -> exists k, key x = Ok k) ->
  forall best kbest, exists r, min_from key best kbest l = Ok r.
Proof.
  induction l as [|x l IH]; intros Hk best kbest; simpl; [eauto|].
  destruct (Hk x) as (kx & ->); [left|]. simpl.
  assert (forall y, y ∈ l -> exists k, key y = Ok k) as Hk' by (intros y Hy; apply Hk; right; exact Hy).
  destruct (kx <? kbest)%float; apply IH; assumption.
Qed.

Lemma py_min_ok {A : Type} (key : A -> outcome float) (l : list A) :
  l <> [] -> (forall x, x ∈ l -> exists k, key x = Ok k) -> exists r, py_min key l = Ok r.
Proof.
  destruct l as [|x l]; [congruence|]. intros _ Hk. simpl.
  destruct (Hk x) as (kx & ->); [left|]. simpl. apply min_from_ok.
  intros y Hy. apply Hk. right. exact Hy.
Qed.

(** Without a collision constraint, an extension towards the
    neighbour's own state always attaches a node. *)
Lemma extend_own_state (self : t) (h : heap) (nb : ref) :
  ada_collision_constraint self = None ->
  exists cand,
    _extend_sample self h (state (deref h nb)) nb
    = Ok (Some (length h), (add_child h nb cand).2).
Proof.
  intros Hnone. unfold _extend_sample, candidate, Np.sub, Np.add.
  set (st := state (deref h nb)).
  destruct (broadcast_same PrimFloat.sub st st) as (-> & Hd); [reflexivity|]. simpl.
  set (d := zip_with PrimFloat.sub st st) in *.
  set (step := Np.mul_scalar (Np.div_scalar d (Np.norm d)) (step_size self)).
  assert (length st = length step) as Hstep.
  { unfold step, Np.mul_scalar, Np.div_scalar. rewrite !length_map. congruence. }
  destruct (broadcast_same PrimFloat.add st step Hstep) as (-> & _). simpl.
  unfold _check_for_collision. rewrite Hnone. simpl. eauto.
Qed.

Section Dimension.

Variable self : t.
Variable n : nat.

Lemma draw_dimension (h : heap) (g : Np.rng) :
  consistent self h -> dimension self h n ->
  exists s, (draw self h g).1 = Ok s /\ length s = n.
Proof.
  intros (_ & Hg & Hinv) (Hlo & Hhi & Hst). unfold draw.
  destruct (Np.uniform 0 1 g) as [coin g1]. destruct (coin <=? 0.2)%float.
  - unfold _get_random_sample_near_goal.
    pose proof (uniform_size_length (-0.05) 0.05
                  (length (state (deref h (goal self)))) g1) as Hj.
    destruct (Np.uniform_size _ _ _ g1) as [jitter g']. simpl in *.
    destruct (broadcast_same PrimFloat.add (state (deref h (goal self))) jitter)
      as (E & Hlen); [congruence|].
    unfold Np.add. rewrite E. eexists. split; [reflexivity|]. rewrite Hlen.
    apply Hst. rewrite Hg. pose proof (inv_size h Hinv). unfold goal_ref. lia.
  - unfold _get_random_sample.
    pose proof (uniform_each_length (zip (lower_limits self) (upper_limits self)) g1) as Hu.
    destruct (uniform_each _ g1) as [s g']. cbn [fst] in *. exists s.
    split; [reflexivity|]. rewrite Hu, length_zip_with. lia.
Qed.

Lemma distance_to_dimension (h : heap) (sample : Np.ndarray) (x : ref) :
  dimension self h n -> length sample = n -> x < length h ->
  exists d, distance_to h sample x = Ok d.
Proof.
  intros (_ & _ & Hst) Hs Hx. unfold distance_to, Np.sub.
  destruct (broadcast_same PrimFloat.sub (state (deref h x)) sample) as (-> & _);
    [rewrite Hst by assumption; congruence|].
  simpl. eauto.
Qed.

Lemma candidate_dimension (sample st : Np.ndarray) :
  length sample = n -> length st = n ->
  exists cand, candidate self sample st = Ok cand /\ length cand = n.
Proof.
  intros Hs Hst. unfold candidate, Np.sub, Np.add.
  destruct (broadcast_same PrimFloat.sub sample st) as (-> & Hd); [congruence|]. simpl.
  set (d := zip_with PrimFloat.sub sample st) in *.
  set (step := Np.mul_scalar (Np.div_scalar d (Np.norm d)) (step_size self)).
  assert (length step = n) as Hstep.
  { unfold step, Np.mul_scalar, Np.div_scalar. rewrite !length_map. congruence. }
  destruct (broadcast_same PrimFloat.add st step) as (-> & Hc); [congruence|].
  eexists. split; [reflexivity|congruence].
Qed.

Lemma dimension_add_child (h : heap) (nb : ref) (cand : Np.ndarray) :
  dimension self h n -> nb < length h -> length cand = n ->
  dimension self (add_child h nb cand).2 n.
Proof.
  intros (Hlo & Hhi & Hst) Hnb Hc. split; [assumption|]. split; [assumption|].
  intros i Hi. rewrite add_child_length in Hi.
  destruct (decide (i = length h)) as [->|Hne].
  - rewrite deref_add_child by assumption.
    destruct (decide (length h = length h)); [exact Hc|contradiction].
  - rewrite state_add_child_old by assumption. apply Hst. lia.
Qed.

Lemma attempt_dimension (h : heap) (sample : Np.ndarray) :
  snapshot self h -> dimension self h n -> length sample = n ->
  exists res h', attempt self h sample = (Ok res, h') /\ dimension self h' n.
Proof.
  intros Hsnap Hdim Hs. apply snapshot_consistent in Hsnap as Hcons.
  pose proof Hcons as (Hstart & Hgoal & Hinv).
  unfold attempt.
  assert (exists nb, _get_nearest_neighbor self h sample = Ok nb) as (nb & Hnn).
  { unfold _get_nearest_neighbor. rewrite Hstart.
    destruct (Node__iter__root h Hinv) as (l & -> & _ & Hl). unfold obind at 1.
    apply py_min_ok; [discriminate|]. intros x [Hx _]%Hl.
    apply distance_to_dimension; assumption. }
  rewrite Hnn. cbn [obind].
  pose proof (nearest_tree_node self h sample nb Hcons Hnn) as Hnb.
  destruct (candidate_dimension sample (state (deref h nb))) as (cand & Hcand & Hclen);
    [assumption|apply Hdim, Hnb|].
  destruct (_check_for_collision self cand) eqn:Hcol.
  { assert (_extend_sample self h sample nb = Ok (None, h)) as ->
      by (unfold _extend_sample; rewrite Hcand; simpl; rewrite Hcol; reflexivity).
    eauto. }
  pose proof (dimension_add_child h nb cand Hdim (proj1 Hnb) Hclen) as Hdim'.
  set (h' := (add_child h nb cand).2) in *.
  assert (_extend_sample self h sample nb = Ok (Some (length h), h')) as Hext.
  { unfold _extend_sample. rewrite Hcand. simpl. rewrite Hcol. reflexivity. }
  rewrite Hext.
  destruct (extend_new_node self h sample nb (length h) h' Hcons Hnb Hext)
    as (_ & Hlen & Hnode).
  assert (snapshot self h') as Hsnap' by (eapply snapshot_extend; eassumption).
  apply snapshot_consistent in Hsnap' as (_ & _ & Hinv').
  unfold _check_for_completion, Np.sub.
  destruct (broadcast_same PrimFloat.sub (state (deref h' (length h)))
              (state (deref h' (goal self)))) as (-> & _).
  { destruct Hdim' as (_ & _ & Hst'). rewrite !Hst'; [reflexivity| |lia].
    rewrite Hgoal, Hlen. pose proof (inv_size h Hinv). unfold goal_ref. lia. }
  cbn [obind]. destruct (_ <? goal_precision self)%float; [|eauto].
  destruct (trace_path_traced h' Hinv' self (length h) Hnode) as (nodes & path & -> & _).
  cbn [obind]. eauto.
Qed.

(** With matching dimensions no pass of the loop raises. *)
Lemma build_loop_no_raise (k : nat) :
  forall h g e, snapshot self h -> dimension self h n ->
  forall x, result (build_loop self k h g e) <> Raise x.
Proof.
  induction k as [|k IH]; intros h g e Hsnap Hdim x; simpl; [discriminate|].
  apply snapshot_consistent in Hsnap as Hcons.
  destruct (body_cases self h g) as (sample & g' & Hd & ->).
  destruct (draw_dimension h g Hcons Hdim) as (s & Hs & Hlen).
  rewrite Hd in Hs. simpl in Hs. subst sample.
  destruct (attempt_dimension h s Hsnap Hdim Hlen) as (res & h' & Hatt & Hdim').
  rewrite Hatt. destruct res as [path|]; simpl; [discriminate|].
  apply IH; [|assumption].
  eapply attempt_inv in Hatt as (Hsnap' & _); eassumption.
Qed.

End Dimension.

End DimensionFacts.

(** ** Paths returned by [build] *)

Module PathFacts.
Import AdaRRT HeapFacts IterFacts PlannerFacts TraceFacts BuildFacts FloatOrder.

Lemma completion_true_iff (self : t) (h : heap) (node : ref) :
  _check_for_completion self h node = Ok true <->
  exists d, Np.sub (state (deref h node)) (state (deref h (goal self))) = Ok d /\
            flt (Np.norm d) (goal_precision self).
Proof.
  unfold _check_for_completion, flt. split.
  - destruct (Np.sub _ _) as [d| |]; simpl; try discriminate.
    intros [= H]. exists d. split; [reflexivity|assumption].
  - intros (d & -> & H). simpl. rewrite H. reflexivity.
Qed.

Section Traced.

Variable h : heap.
Variables (terminal : ref) (nodes : list ref) (path : list Np.ndarray).
Hypothesis Htr : traced h terminal nodes path.

Lemma traced_head : head path = Some (state (deref h root_ref)).
Proof using Htr.
  destruct Htr as (_ & _ & Hlast & ->).
  rewrite head_reverse, fmap_last, Hlast. reflexivity.
Qed.

Lemma traced_last : last path = Some (state (deref h terminal)).
Proof using Htr.
  destruct Htr as (Hw & _ & _ & ->). apply walk_head in Hw as (l & ->).
  rewrite last_reverse. reflexivity.
Qed.

Lemma traced_adjacent (pre post : list Np.ndarray) (a b : Np.ndarray) :
  path = pre ++ a :: b :: post ->
  exists child par, parent (deref h child) = Some par /\
    state (deref h par) = a /\ state (deref h child) = b.
Proof using Htr.
  destruct Htr as (Hw & _ & _ & ->). intros E.
  apply (f_equal reverse) in E. rewrite reverse_involutive in E.
  rewrite reverse_app, !reverse_cons, <- !app_assoc in E. simpl in E.
  apply fmap_app_inv in E as (l1 & l2 & _ & E2 & ->).
  symmetry in E2. apply fmap_cons_inv in E2 as (child & l3 & Hb & E3 & ->).
  symmetry in E3. apply fmap_cons_inv in E3 as (par & l4 & Ha & _ & ->).
  exists child, par. split; [|split; congruence].
  eapply walk_adjacent; [exact Hw|reflexivity].
Qed.

Lemma traced_length : is_Some (parent (deref h terminal)) -> 2 <= length path.
Proof using Htr.
  destruct Htr as (Hw & _ & _ & ->). intros [p Hp].
  rewrite length_reverse, length_fmap.
  destruct Hw as [n Hn | n q l Hq Hw]; [congruence|].
  apply walk_head in Hw as (l' & ->). simpl. lia.
Qed.

End Traced.

Section States.

Variable self : t.

Lemma attempt_states (h : heap) (sample : Np.ndarray) :
  consistent self h ->
  length h <= length (attempt self h sample).2 /\
  forall i, i < length h ->
    state (deref (attempt self h sample).2 i) = state (deref h i).
Proof.
  intros Hcons. unfold attempt.
  destruct (_get_nearest_neighbor self h sample) as [nb| |] eqn:Hnn; simpl;
    try (split; [lia|reflexivity]).
  pose proof (nearest_tree_node self h sample nb Hcons Hnn) as [Hnb _].
  destruct (_extend_sample self h sample nb) as [[r h1]| |] eqn:Hext; simpl;
    try (split; [lia|reflexivity]).
  assert (length h <= length h1 /\
          forall i, i < length h -> state (deref h1 i) = state (deref h i)) as Hgoal.
  { apply extend_cases in Hext as (cand & _ & [(_ & _ & ->)|(_ & _ & ->)]).
    - split; [lia|reflexivity].
    - rewrite add_child_length. split; [lia|]. intros i Hi.
      apply state_add_child_old; [assumption|lia]. }
  destruct r as [t|]; exact Hgoal.
Qed.

(** The loop never touches the state of a node that already exists. *)
Lemma build_loop_states (k : nat) :
  forall h g e, snapshot self h ->
  forall i, i < length h ->
  state (deref (final_heap (build_loop self k h g e)) i) = state (deref h i).
Proof.
  induction k as [|k IH]; intros h g e Hsnap i Hi; simpl; [reflexivity|].
  destruct (body_cases self h g) as (sample & g' & _ & ->).
  destruct sample as [sample| |]; simpl; try reflexivity.
  pose proof (attempt_states h sample (snapshot_consistent self h Hsnap)) as (Hlen & Hst).
  pose proof (attempt_snapshot self h sample Hsnap) as Hsnap'.
  destruct (attempt self h sample) as [[[path|]| |] h']; simpl in *;
    try (apply Hst; exact Hi).
  rewrite IH by (assumption || lia). apply Hst. exact Hi.
Qed.

End States.

End PathFacts.

(** ** A whole run of [build] *)

Module RunFacts.
Import AdaRRT HeapFacts IterFacts PlannerFacts TraceFacts BuildFacts DimensionFacts
  PathFacts FloatOrder.

Lemma init_snapshot (s g : Np.ndarray) (lo hi : pyarg) (c : option (Np.ndarray -> bool))
    (st pr : float) (it : Z) (self : t) (h : heap) :
  __init__ s g lo hi c st pr it = Ok (self, h) -> snapshot self h.
Proof.
  intros Hinit. pose proof Hinit as (_ & _ & _ & Hc & Hst & Hpr & Hit)%init_inv.
  apply (snapshot_init self s g lo hi). rewrite Hc, Hst, Hpr, Hit. exact Hinit.
Qed.

Lemma build_outcome (s g : Np.ndarray) (lo hi : pyarg) (c : option (Np.ndarray -> bool))
    (st pr : float) (it : Z) (self : t) (h0 : heap) (rng : Np.rng) :
  __init__ s g lo hi c st pr it = Ok (self, h0) ->
  let r := build self h0 rng in
  snapshot self (final_heap r) /\ iterations r <= Z.to_nat it /\
  match result r with
  | Ok None => iterations r = Z.to_nat it
  | Ok (Some path) => path_facts self (final_heap r) s g path
  | Raise _ => ~ exists n, dimension self h0 n
  | Diverge => False
  end.
Proof.
  intros Hinit. pose proof (init_snapshot _ _ _ _ _ _ _ _ _ _ Hinit) as Hsnap.
  pose proof Hinit as (Hh0 & _ & Hgoal & _ & _ & _ & Hit)%init_inv.
  unfold build. rewrite Hit.
  pose proof (build_loop_spec self (Z.to_nat it) h0 rng 0 Hsnap) as (Hfin & Hiter & Hres).
  pose proof (build_loop_states self (Z.to_nat it) h0 rng 0 Hsnap) as Hst.
  pose proof (build_loop_no_raise self) as Hnr.
  set (r := build_loop self (Z.to_nat it) h0 rng 0) in *. simpl.
  split; [assumption|]. split; [lia|].
  destruct (result r) as [[path|]| |] eqn:Er; [| lia | | assumption].
  - destruct Hres as (terminal & nodes & Hlen & Hterm & Hc & Htr).
    pose proof (proj1 (completion_true_iff _ _ _) Hc) as (d & Hd & Hlt).
    pose proof (snapshot_consistent self _ Hfin) as (_ & _ & Hinv).
    exists terminal, nodes, d. split; [assumption|]. split; [assumption|].
    split; [|split; [|split; [|split; [|split]]]].
    + rewrite (traced_head _ _ _ _ Htr), Hst by (rewrite Hh0; unfold root_ref; simpl; lia).
      rewrite Hh0. reflexivity.
    + exact (traced_last _ _ _ _ Htr).
    + rewrite Hgoal, (Hst goal_ref) in Hd by (rewrite Hh0; unfold goal_ref; simpl; lia).
      rewrite Hh0 in Hd. exact Hd.
    + exact Hlt.
    + apply (traced_length _ _ _ _ Htr). apply (inv_has_parent _ Hinv). lia.
    + intros pre a b post E.
      destruct (traced_adjacent _ _ _ _ Htr pre post a b E)
        as (child & par & Hp & <- & <-).
      exact (snapshot_extended self _ Hfin child par Hp).
  - intros (n & Hdim). exact (Hnr n (Z.to_nat it) h0 rng 0 Hsnap Hdim e Er).
Qed.

End RunFacts.

(** * The planner against its specification *)

Import AdaRRT FloatOrder.

(** ** Termination check *)

(** C7: the termination check answers true exactly when the Euclidean
    distance from the node's state to the goal state is strictly below
    [goal_precision]; the answer depends on nothing but these two states
    and the precision (not on the node's parent or children, the tree,
    the step size, the limits or the collision constraint). *)
Theorem check_for_completion_distance_only (self : t) (h : heap) (node : ref) :
  (_check_for_completion self h node = Ok true <->
   exists d, Np.sub (state (deref h node)) (state (deref h (goal self))) = Ok d /\
             flt (Np.norm d) (goal_precision self)) /\
  (forall self' h' node',
     state (deref h' node') = state (deref h node) ->
     state (deref h' (goal self')) = state (deref h (goal self)) ->
     goal_precision self' = goal_precision self ->
     _check_for_completion self' h' node' = _check_for_completion self h node).
Proof.
  split; [apply PathFacts.completion_true_iff|].
  intros self' h' node' Hn Hg Hp. unfold _check_for_completion.
  rewrite Hn, Hg, Hp. reflexivity.
Qed.

Lemma check_for_completion_distance_only_witness :
  _check_for_completion Scenario.rounding_planner Scenario.rounding_heap 0 = Ok true.
Proof.
  apply (proj1 (check_for_completion_distance_only
                  Scenario.rounding_planner Scenario.rounding_heap 0)).
  exists [(0.1 - 0.3)%float]. split; reflexivity.
Defined.

(** ** Construction *)

(** C10: [__init__] keeps a bounds argument when its truth value is
    true and takes the class default when it is false, without any
    error; [None] and the empty list are both false; and construction
    raises exactly when one of the two bounds arguments is an array of
    more than one element. *)
Theorem init_bounds_truth_value (s g : Np.ndarray) (lo hi : pyarg)
    (c : option (Np.ndarray -> bool)) (st pr : float) (it : Z) :
  (forall self h, __init__ s g lo hi c st pr it = Ok (self, h) ->
     exists bl bh, truth lo = Ok bl /\ truth hi = Ok bh /\
       lower_limits self = (if bl then elements lo else joint_lower_limits) /\
       upper_limits self = (if bh then elements hi else joint_upper_limits)) /\
  (forall bl bh, truth lo = Ok bl -> truth hi = Ok bh ->
     exists self h, __init__ s g lo hi c st pr it = Ok (self, h)) /\
  truth PyNone = Ok false /\ truth (PyList []) = Ok false /\
  (__init__ s g lo hi c st pr it = Raise ValueError <->
   exists a, 2 <= length a /\ (lo = PyArray a \/ hi = PyArray a)).
Proof.
  split; [|split; [|split; [reflexivity|split; [reflexivity|]]]].
  - intros self h. unfold __init__, py_or. simpl.
    destruct (truth lo) as [bl| |]; simpl; try discriminate.
    destruct (truth hi) as [bh| |]; simpl; try discriminate.
    intros [= <- _]. exists bl, bh. repeat split.
  - intros bl bh Hlo Hhi. unfold __init__, py_or. simpl. rewrite Hlo, Hhi. simpl. eauto.
  - unfold __init__, py_or. simpl.
    pose proof (PlannerFacts.truth_raises lo) as Hlo.
    pose proof (PlannerFacts.truth_raises hi) as Hhi.
    pose proof (PlannerFacts.truth_not_diverge lo) as Dlo.
    pose proof (PlannerFacts.truth_not_diverge hi) as Dhi.
    destruct (truth lo) as [bl|[]|]; simpl; [| |congruence].
    + destruct (truth hi) as [bh|[]|]; simpl; [| |congruence].
      * split; [discriminate|]. intros (a & Ha & [E|E]).
        -- assert (Ok bl = Raise ValueError) by (apply Hlo; eauto). discriminate.
        -- assert (Ok bh = Raise ValueError) by (apply Hhi; eauto). discriminate.
      * split; [|reflexivity]. intros _.
        destruct (proj1 Hhi eq_refl) as (a & -> & Ha). eauto.
    + split; [|reflexivity]. intros _.
      destruct (proj1 Hlo eq_refl) as (a & -> & Ha). eauto.
Qed.

Lemma init_bounds_truth_value_witness :
  __init__ [0%float] [5%float] (PyArray [0%float; 1%float]) PyNone None 0.25 1 10
  = Raise ValueError.
Proof.
  apply (proj2 (proj2 (proj2 (proj2 (proj2 (init_bounds_truth_value [0%float] [5%float]
           (PyArray [0%float; 1%float]) PyNone None 0.25 1 10)))))).
  exists [0%float; 1%float]. split; [simpl; lia|]. left. reflexivity.
Defined.

(** ** The loop of [build] *)



(** ** Returned paths *)




(** ** Goal equal to start *)

(** C9 as stated fails: with start and goal both at the origin and all
    defaults, [build] does not return the single-element path; it runs
    one pass of the loop and returns a path of two states. *)
Lemma build_goal_at_start_extends :
  __init__ Scenario.origin Scenario.origin PyNone PyNone None 0.25 1 10000
    = Ok (Scenario.origin_planner, Scenario.origin_heap) /\
  exists x,
    result (build Scenario.origin_planner Scenario.origin_heap Scenario.halves)
      = Ok (Some [Scenario.origin; x]) /\
    iterations (build Scenario.origin_planner Scenario.origin_heap Scenario.halves) = 1.
Proof.
  split; [reflexivity|]. eexists. split; vm_compute; reflexivity.
Qed.

(** C9, as the code has it: the root is never checked against goal
    precision.  When goal and start state are equal, a path returned by
    [build] still has at least two states (the first is the start
    state), and with [max_iter <= 0] no path is returned. *)
Theorem build_goal_at_start (s : Np.ndarray) (lo hi : pyarg)
    (c : option (Np.ndarray -> bool)) (st pr : float) (it : Z) (self : t) (h0 : heap)
    (rng : Np.rng) :
  __init__ s s lo hi c st pr it = Ok (self, h0) ->
  (forall path, result (build self h0 rng) = Ok (Some path) ->
     2 <= length path /\ head path = Some s) /\
  ((it <= 0)%Z -> result (build self h0 rng) = Ok None).
Proof.
  intros Hinit. split.
  - intros path Hres.
    destruct (RunFacts.build_outcome s s lo hi c st pr it self h0 rng Hinit)
      as (_ & _ & Hfacts).
    rewrite Hres in Hfacts. destruct Hfacts as (terminal & nodes & d & Hfacts). tauto.
  - intros Hit. apply PlannerFacts.init_inv in Hinit as (_ & _ & _ & _ & _ & _ & E).
    unfold build. rewrite E. replace (Z.to_nat it) with 0 by lia. reflexivity.
Qed.

Lemma build_goal_at_start_witness :
  (forall path,
     result (build Scenario.origin_planner Scenario.origin_heap Scenario.halves)
       = Ok (Some path) ->
     2 <= length path /\ head path = Some Scenario.origin) /\
  ((10000 <= 0)%Z ->
     result (build Scenario.origin_planner Scenario.origin_heap Scenario.halves) = Ok None).
Proof.
  exact (build_goal_at_start Scenario.origin PyNone PyNone None 0.25 1 10000
           Scenario.origin_planner Scenario.origin_heap Scenario.halves eq_refl).
Defined.

(** ** Collisions *)




(** ** Nearest neighbour *)

(** C2 as stated fails on a heap the planner can be in, the one a run
    of [build] leaves when its first sample equals the root's state: the
    tree then holds a node whose state is not a number; for the sample
    1.0 the search returns the root, at distance 1, and this distance is
    not less than or equal to the distance of the other node. *)
Lemma nearest_neighbor_nan_node :
  final_heap (build Scenario.stuck_planner Scenario.stuck_heap Scenario.alternating)
    = Scenario.stuck_grown /\
  snapshot Scenario.stuck_planner Scenario.stuck_grown /\
  _get_nearest_neighbor Scenario.stuck_planner Scenario.stuck_grown [1%float] = Ok 0 /\
  tree_node Scenario.stuck_grown 2 /\
  exists d0 d2,
    distance_to Scenario.stuck_grown [1%float] 0 = Ok d0 /\
    distance_to Scenario.stuck_grown [1%float] 2 = Ok d2 /\
    (d0 <=? d2)%float = false.
Proof.
  split; [vm_compute; reflexivity|]. split; [|split; [reflexivity|split]].
  - apply (snapshot_extend Scenario.stuck_planner Scenario.stuck_heap
             [0%float] 0 (Some 2) Scenario.stuck_grown).
    + apply (snapshot_init Scenario.stuck_planner [0%float] [5%float]
               (PyList [0%float]) (PyList [2%float])). reflexivity.
    + reflexivity.
    + reflexivity.
  - unfold tree_node, goal_ref, Scenario.stuck_grown. simpl. lia.
  - exists 1%float, nan. repeat split.
Qed.

(** C2, as the code has it: take a heap the planner can be in and a
    sample whose distance to every node of the tree is computed and is a
    number.  Then the breadth-first iteration from the root ends and
    yields every node of the tree exactly once; the search returns a node
    of the tree, never the goal node; its distance is less than or equal
    to that of every node of the tree; and every node yielded before it
    is strictly farther from the sample. *)
Theorem nearest_neighbor_first_minimum (self : t) (h : heap) (sample : Np.ndarray) :
  snapshot self h ->
  (forall x, tree_node h x -> exists d, distance_to h sample x = Ok d /\ number d) ->
  exists r dr before after,
    _get_nearest_neighbor self h sample = Ok r /\
    Node__iter__ h (start self) = Ok (before ++ r :: after) /\
    NoDup (before ++ r :: after) /\
    (forall x, x ∈ before ++ r :: after <-> tree_node h x) /\
    tree_node h r /\ r <> goal self /\
    distance_to h sample r = Ok dr /\
    (forall x d, tree_node h x -> distance_to h sample x = Ok d -> fle dr d) /\
    (forall x d, x ∈ before -> distance_to h sample x = Ok d -> flt dr d).
Proof.
  intros Hsnap Hkeys.
  pose proof (PlannerFacts.snapshot_consistent self h Hsnap) as (Hs & Hg & Hinv).
  destruct (IterFacts.Node__iter__root h Hinv) as (l & Hiter & Hnd & Hl).
  assert (keyed (distance_to h sample) (root_ref :: l)) as Hk
    by (intros x Hx%Hl; apply Hkeys; exact Hx).
  destruct (MinFacts.py_min_spec (distance_to h sample) (root_ref :: l))
    as (r & dr & before & after & Hmin & Hsplit & Hr & Hnum & Hbefore & Hafter);
    [discriminate|exact Hk|].
  assert (tree_node h r) as Hnode.
  { apply Hl. rewrite Hsplit. apply elem_of_app. right. left. }
  exists r, dr, before, after.
  split; [|split; [|split; [|split; [|split; [|split; [|split; [|split]]]]]]].
  - unfold _get_nearest_neighbor. rewrite Hs, Hiter. exact Hmin.
  - rewrite Hs, Hiter, Hsplit. reflexivity.
  - rewrite <- Hsplit. exact Hnd.
  - rewrite <- Hsplit. exact Hl.
  - exact Hnode.
  - rewrite Hg. apply Hnode.
  - exact Hr.
  - intros x d Hx%Hl Hd. rewrite Hsplit in Hx.
    apply elem_of_app in Hx as [Hx|Hx]; [apply flt_fle; eauto|].
    apply elem_of_cons in Hx as [->|Hx]; [|eauto].
    replace d with dr by congruence. apply fle_refl. exact Hnum.
  - exact Hbefore.
Qed.

Lemma nearest_neighbor_first_minimum_witness :
  exists r dr before after,
    _get_nearest_neighbor Scenario.rounding_planner Scenario.rounding_final [0.3%float]
      = Ok r /\
    Node__iter__ Scenario.rounding_final (start Scenario.rounding_planner)
      = Ok (before ++ r :: after) /\
    NoDup (before ++ r :: after) /\
    (forall x, x ∈ before ++ r :: after <-> tree_node Scenario.rounding_final x) /\
    tree_node Scenario.rounding_final r /\ r <> goal Scenario.rounding_planner /\
    distance_to Scenario.rounding_final [0.3%float] r = Ok dr /\
    (forall x d, tree_node Scenario.rounding_final x ->
       distance_to Scenario.rounding_final [0.3%float] x = Ok d -> fle dr d) /\
    (forall x d, x ∈ before ->
       distance_to Scenario.rounding_final [0.3%float] x = Ok d -> flt dr d).
Proof.
  apply (nearest_neighbor_first_minimum Scenario.rounding_planner Scenario.rounding_final
           [0.3%float]).
  - apply (snapshot_extend Scenario.rounding_planner Scenario.rounding_heap
             [1%float] 0 (Some 2) Scenario.rounding_final).
    + apply (snapshot_init Scenario.rounding_planner [0.1%float] [0.3%float]
               (PyList [0%float]) (PyList [2%float])). reflexivity.
    + reflexivity.
    + reflexivity.
  - intros x [Hx Hg]. unfold goal_ref, Scenario.rounding_final in *. simpl in Hx.
    destruct x as [|[|[|x]]]; try lia; eexists; split; reflexivity.
Defined.

(** ** Extension *)

(** C3 fails on the code: [_extend_sample] has no guard for a sample
    equal to the neighbour's state.  Without a collision constraint such
    an extension never fails: it always attaches a node.  For the arm of
    [main] without collision constraint, extending from the root towards
    the root's own state divides by a zero norm and attaches a child
    whose state has no number in it.  The same happens inside [build]:
    for the one-joint arm at 0 with range [0, 2], the draws 0.5 and 0
    make the first sample equal to the start state, and the pass ends
    with that child in the tree. *)
Theorem degenerate_sample_creates_node :
  (forall (lo hi : list float) (st pr : float) (it : Z) (h : heap) (nb : ref),
     exists cand,
       _extend_sample (mkAdaRRT root_ref goal_ref lo hi None st pr it) h
         (state (deref h nb)) nb
       = Ok (Some (length h), (add_child h nb cand).2)) /\
  (exists h',
     _extend_sample Scenario.arm_planner Scenario.arm_heap Scenario.arm_home root_ref
       = Ok (Some 2, h') /\
     length h' = 3 /\
     deref h' 2 = mkNode [nan; nan; nan; nan; nan; nan] (Some root_ref) [] /\
     children (deref h' root_ref) = [2]) /\
  build Scenario.stuck_planner Scenario.stuck_heap Scenario.alternating
    = mkRun (Ok None) Scenario.stuck_grown 1.
Proof.
  split; [|split; [|vm_compute; reflexivity]].
  - intros lo hi st pr it h nb. apply DimensionFacts.extend_own_state. reflexivity.
  - eexists. split; [vm_compute; reflexivity|]. repeat split.
Qed.




(** ** Malformed configurations *)

(** C8 as stated fails: [__init__] accepts a start state of three
    joints with a goal state of two, a lower bound of one entry with an
    upper bound of four, a negative step size and a negative iteration
    cap, and stores them as given. *)
Lemma init_accepts_malformed :
  __init__ [0%float; 0%float; 0%float] [1%float; 1%float]
    (PyList [0%float]) (PyList [1%float; 1%float; 1%float; 1%float])
    None (-0.25) 1 (-3)
  = Ok (mkAdaRRT 0 1 [0%float] [1%float; 1%float; 1%float; 1%float] None (-0.25) 1 (-3),
        [mkNode [0%float; 0%float; 0%float] None []; mkNode [1%float; 1%float] None []]).
Proof. reflexivity. Qed.

(** C8, as the code has it: [__init__] validates nothing.  Whenever the
    two bounds arguments have a truth value, construction succeeds and
    stores start state, goal state, step size and iteration cap as given,
    whatever their dimensions and signs.  With [max_iter <= 0], [build]
    then returns [None] without entering its loop.  Dimensions that
    disagree show only inside the loop: for a three-joint start state
    with the six default limits, the first pass raises. *)
Theorem init_validates_nothing (s g : Np.ndarray) (lo hi : pyarg)
    (c : option (Np.ndarray -> bool)) (st pr : float) (it : Z) (bl bh : bool) :
  (truth lo = Ok bl -> truth hi = Ok bh ->
   exists self,
     __init__ s g lo hi c st pr it = Ok (self, [mkNode s None []; mkNode g None []]) /\
     step_size self = st /\ goal_precision self = pr /\ max_iter self = it /\
     ((it <= 0)%Z -> forall h rng, build self h rng = mkRun (Ok None) h 0)) /\
  (__init__ [0%float; 0%float; 0%float] [1%float; 1%float] PyNone PyNone None 0.25 1 3
     = Ok (Scenario.mismatched_planner, Scenario.mismatched_heap) /\
   build Scenario.mismatched_planner Scenario.mismatched_heap Scenario.halves
     = mkRun (Raise ValueError) Scenario.mismatched_heap 1).
Proof.
  split; [|split; [reflexivity|vm_compute; reflexivity]].
  intros Hlo Hhi. unfold __init__, py_or. simpl. rewrite Hlo, Hhi. simpl.
  eexists. split; [reflexivity|]. simpl. repeat split.
  intros Hit h rng. unfold build. simpl. replace (Z.to_nat it) with 0 by lia. reflexivity.
Qed.

Lemma init_validates_nothing_witness :
  exists self,
    __init__ [0%float; 0%float; 0%float] [1%float; 1%float]
      (PyList [0%float]) (PyList [1%float; 1%float; 1%float; 1%float])
      None (-0.25) 1 (-3)
    = Ok (self, [mkNode [0%float; 0%float; 0%float] None [];
                 mkNode [1%float; 1%float] None []]) /\
    step_size self = (-0.25)%float /\ goal_precision self = 1%float /\
    max_iter self = (-3)%Z /\
    ((-3 <= 0)%Z -> forall h rng, build self h rng = mkRun (Ok None) h 0).
Proof.
  apply (proj1 (init_validates_nothing [0%float; 0%float; 0%float] [1%float; 1%float]
                  (PyList [0%float]) (PyList [1%float; 1%float; 1%float; 1%float])
                  None (-0.25) 1 (-3) true true)); reflexivity.
Defined.

(** * Further properties of the code *)

(** ** Depth of a node *)

Module DepthFacts.
Import AdaRRT HeapFacts TraceFacts.

Section Depth.

Variable h : heap.
Hypothesis Hinv : tree_inv h.

Lemma depth_loop_fuel (fuel : nat) :
  forall n, n < fuel -> depth_loop (S fuel) h n = depth_loop fuel h n.
Proof using Hinv.
  induction fuel as [|fuel IH]; intros n Hn; [lia|].
  cbn [depth_loop]. destruct (parent (deref h n)) as [p|] eqn:Hp; [|reflexivity].
  f_equal. pose proof (inv_parent h Hinv n p Hp) as (Hlt & _).
  rewrite <- (IH p) by lia. reflexivity.
Qed.

Lemma depth_child (c p : ref) :
  parent (deref h c) = Some p -> depth h c = S (depth h p).
Proof using Hinv.
  intros Hp. unfold depth. pose proof (parent_inside h c p Hp) as Hc.
  pose proof (inv_parent h Hinv c p Hp) as (Hlt & _).
  destruct (length h) as [|m] eqn:E; [lia|].
  cbn [depth_loop]. rewrite Hp. f_equal. symmetry. apply depth_loop_fuel. lia.
Qed.

Lemma depth_orphan (n : ref) : parent (deref h n) = None -> depth h n = 0.
Proof. intros Hp. unfold depth. destruct (length h); simpl; [|rewrite Hp]; reflexivity. Qed.

Lemma walk_length (n : ref) (nodes : list ref) :
  walk h n nodes -> length nodes = S (depth h n).
Proof using Hinv.
  induction 1 as [n Hn | n p l Hp Hw IH].
  - rewrite depth_orphan by assumption. reflexivity.
  - rewrite (depth_child n p Hp). simpl. rewrite IH. reflexivity.
Qed.

End Depth.

End DepthFacts.

(** ** Order of the breadth-first iteration *)

Module LevelFacts.
Import AdaRRT HeapFacts IterFacts DepthFacts.

Section Level.

Variable h : heap.
Hypothesis Hinv : tree_inv h.

Lemma pending_step (x : ref) (rest : list ref) :
  pending h (x :: rest) -> pending h (rest ++ children (deref h x)).
Proof using Hinv.
  intros [Hsorted Hspan]. apply StronglySorted_cons in Hsorted as [Hx Hrest].
  rewrite Forall_forall in Hx.
  assert (forall c, c ∈ children (deref h x) -> depth h c = S (depth h x)) as Hc.
  { intros c Hin%(inv_children h Hinv). apply depth_child; assumption. }
  split.
  - apply StronglySorted_app. split; [|split; [exact Hrest|]].
    + intros a c Ha Hcin. unfold shallower. rewrite (Hc c Hcin).
      apply (Hspan x a); [left|right; exact Ha].
    + induction (children (deref h x)) as [|c cs IH]; [constructor|].
      apply StronglySorted_cons. split.
      * apply Forall_forall. intros c' Hc'. unfold shallower.
        rewrite (Hc c), (Hc c'); [lia|right; exact Hc'|left].
      * apply IH. intros c' Hc'. apply Hc. right. exact Hc'.
  - intros a b [Ha|Ha]%elem_of_app [Hb|Hb]%elem_of_app.
    + pose proof (Hx a Ha). pose proof (Hspan x b (list_elem_of_here _ _)
        (list_elem_of_further _ _ _ Hb)). unfold shallower in *. lia.
    + rewrite (Hc b Hb). pose proof (Hx a Ha). unfold shallower in *. lia.
    + rewrite (Hc a Ha).
      pose proof (Hspan x b (list_elem_of_here _ _) (list_elem_of_further _ _ _ Hb)). lia.
    + rewrite (Hc a Ha), (Hc b Hb). lia.
Qed.

Lemma iter_loop_levels (fuel : nat) :
  forall q l, pending h q -> iter_loop fuel h q = Ok l ->
  StronglySorted (shallower h) l /\
  forall m, (forall a, a ∈ q -> m <= depth h a) -> forall b, b ∈ l -> m <= depth h b.
Proof using Hinv.
  induction fuel as [|fuel IH]; intros q l Hq Hl.
  - destruct q; [|discriminate]. injection Hl as <-. split; [constructor|].
    intros m _ b Hb. inversion Hb.
  - destruct q as [|x rest]; simpl in Hl.
    { injection Hl as <-. split; [constructor|]. intros m _ b Hb. inversion Hb. }
    destruct (iter_loop fuel h (rest ++ children (deref h x))) as [l'| |] eqn:E;
      simpl in Hl; try discriminate.
    injection Hl as <-.
    destruct (IH _ _ (pending_step x rest Hq) E) as (Hsorted & Hlow).
    assert (forall a, a ∈ rest ++ children (deref h x) -> depth h x <= depth h a) as Hx.
    { intros a [Ha|Ha]%elem_of_app.
      - destruct Hq as [Hs _]. apply StronglySorted_cons in Hs as [Hs _].
        rewrite Forall_forall in Hs. exact (Hs a Ha).
      - apply (inv_children h Hinv) in Ha. rewrite (depth_child h Hinv a x Ha). lia. }
    split.
    + apply StronglySorted_cons. split; [|exact Hsorted].
      apply Forall_forall. intros b Hb. exact (Hlow _ Hx b Hb).
    + intros m Hm b [->|Hb]%elem_of_cons; [apply Hm; left|].
      apply (Hlow m); [|exact Hb]. intros a Ha.
      pose proof (Hx a Ha). pose proof (Hm x (list_elem_of_here _ _)). lia.
Qed.

(** The iteration from the root yields the nodes level by level. *)
Lemma Node__iter__levels (l : list ref) :
  Node__iter__ h root_ref = Ok l ->
  StronglySorted (fun a b => depth h a <= depth h b) l.
Proof using Hinv.
  intros Hl. apply (iter_loop_levels (length h) [root_ref] l); [|exact Hl].
  split; [repeat constructor|].
  intros a b ->%list_elem_of_singleton ->%list_elem_of_singleton. lia.
Qed.

End Level.

End LevelFacts.

(** ** Nodes, their iteration and their paths *)

(** X1: [add_child] allocates the child at the end of the heap, with the
    given state, the node as its parent and no children; it appends the
    child as the last entry of the node's children, keeps the node's
    state and parent, and leaves every other object as it was. *)
Theorem add_child_effect (h : heap) (self : ref) (st : Np.ndarray) :
  self < length h ->
  (add_child h self st).1 = length h /\
  length (add_child h self st).2 = S (length h) /\
  deref (add_child h self st).2 (length h) = mkNode st (Some self) [] /\
  deref (add_child h self st).2 self =
    mkNode (state (deref h self)) (parent (deref h self))
      (children (deref h self) ++ [length h]) /\
  (forall i, i <> self -> i <> length h -> deref (add_child h self st).2 i = deref h i).
Proof.
  intros Hself. split; [reflexivity|]. split; [apply HeapFacts.add_child_length|].
  split; [|split].
  - rewrite HeapFacts.deref_add_child by assumption.
    destruct (decide (length h = length h)); [reflexivity|contradiction].
  - rewrite HeapFacts.deref_add_child by assumption.
    destruct (decide (self = length h)); [lia|].
    destruct (decide (self = self)); [reflexivity|contradiction].
  - intros i Hi Hn. rewrite HeapFacts.deref_add_child by assumption.
    destruct (decide (i = length h)); [contradiction|].
    destruct (decide (i = self)); [contradiction|reflexivity].
Qed.

Lemma add_child_effect_witness :
  (add_child Scenario.rounding_heap 0 [0.35%float]).2 = Scenario.rounding_final /\
  deref (add_child Scenario.rounding_heap 0 [0.35%float]).2 0 =
    mkNode (state (deref Scenario.rounding_heap 0)) (parent (deref Scenario.rounding_heap 0))
      (children (deref Scenario.rounding_heap 0) ++ [length Scenario.rounding_heap]).
Proof.
  split; [reflexivity|].
  apply (add_child_effect Scenario.rounding_heap 0 [0.35%float]). simpl. lia.
Defined.

(** X2: every heap the planner goes through is a tree rooted at the
    start node: being in a node's children and having that node as
    parent are the same, no children list repeats a node, a parent is
    older than its child, every node but the root and the goal node has
    a parent, and following parent references from any node of the tree
    ends at the root without meeting a node twice. *)
Theorem snapshot_tree_shape (self : t) (h : heap) :
  snapshot self h ->
  (forall p c, c ∈ children (deref h p) <-> parent (deref h c) = Some p) /\
  (forall p, NoDup (children (deref h p))) /\
  (forall c p, parent (deref h c) = Some p -> p < c /\ tree_node h p /\ tree_node h c) /\
  (forall i, tree_node h i -> i <> start self -> is_Some (parent (deref h i))) /\
  (forall i, tree_node h i ->
     exists nodes, walk h i nodes /\ NoDup nodes /\ last nodes = Some (start self)).
Proof.
  intros (Hs & Hg & Hinv)%PlannerFacts.snapshot_consistent.
  split; [apply (inv_children h Hinv)|]. split; [apply (inv_children_nodup h Hinv)|].
  split; [|split].
  - intros c p Hp. pose proof (inv_parent h Hinv c p Hp) as (Hlt & Hpg & Hcg).
    pose proof (HeapFacts.parent_inside h c p Hp) as Hc.
    unfold tree_node. repeat split; (assumption || lia).
  - intros i [Hi Hig] Hroot. apply (inv_has_parent h Hinv).
    rewrite Hs in Hroot. unfold root_ref, goal_ref in *. lia.
  - intros i Hi.
    destruct (TraceFacts.trace_loop_walk h Hinv (length h) i (proj1 Hi))
      as (nodes & Hw & _ & Hnd & _ & Hlast).
    exists nodes. rewrite Hs. auto.
Qed.

Lemma snapshot_tree_shape_witness :
  snapshot Scenario.rounding_planner Scenario.rounding_final /\
  exists nodes, walk Scenario.rounding_final 2 nodes /\ NoDup nodes /\
                last nodes = Some (start Scenario.rounding_planner).
Proof.
  assert (snapshot Scenario.rounding_planner Scenario.rounding_final) as Hsnap.
  { apply (snapshot_extend Scenario.rounding_planner Scenario.rounding_heap
             [1%float] 0 (Some 2) Scenario.rounding_final).
    - apply (snapshot_init Scenario.rounding_planner [0.1%float] [0.3%float]
               (PyList [0%float]) (PyList [2%float])). reflexivity.
    - reflexivity.
    - reflexivity. }
  split; [exact Hsnap|].
  apply (snapshot_tree_shape Scenario.rounding_planner Scenario.rounding_final Hsnap).
  unfold tree_node, goal_ref, Scenario.rounding_final. simpl. lia.
Defined.

(** X3: on every heap the planner goes through, iterating over the
    root ends and yields one node less than the heap holds (all but the
    goal node), level by level: a node is never yielded before a node
    of smaller depth, and the parent of a yielded node was yielded
    before it. *)
Theorem iteration_level_order (self : t) (h : heap) :
  snapshot self h ->
  exists l,
    Node__iter__ h (start self) = Ok l /\
    S (length l) = length h /\
    StronglySorted (fun a b => depth h a <= depth h b) l /\
    (forall before c after p,
       l = before ++ c :: after -> parent (deref h c) = Some p -> p ∈ before).
Proof.
  intros (Hs & Hg & Hinv)%PlannerFacts.snapshot_consistent. rewrite Hs.
  destruct (IterFacts.Node__iter__root h Hinv) as (l & Hiter & Hnd & Hl).
  pose proof (LevelFacts.Node__iter__levels h Hinv _ Hiter) as Hsorted.
  pose proof (inv_size h Hinv) as Hsz.
  exists (root_ref :: l). split; [exact Hiter|]. split; [|split; [exact Hsorted|]].
  - assert (root_ref :: l ≡ₚ 0 :: seq 2 (length h - 2)) as Hperm.
    { apply NoDup_Permutation; [exact Hnd| |].
      - apply NoDup_cons. split; [|apply NoDup_seq].
        rewrite elem_of_seq. lia.
      - intros x. rewrite Hl, elem_of_cons, elem_of_seq. unfold tree_node, goal_ref. lia. }
    apply Permutation_length in Hperm. rewrite Hperm. simpl. rewrite length_seq. lia.
  - intros before c after p E Hp.
    pose proof (inv_parent h Hinv c p Hp) as (Hlt & Hpg & _).
    pose proof (HeapFacts.parent_inside h c p Hp) as Hc.
    assert (p ∈ root_ref :: l) as Hin by (apply Hl; split; [lia|assumption]).
    rewrite E in Hin, Hsorted.
    apply elem_of_app in Hin as [Hin|Hin]; [exact Hin|exfalso].
    apply elem_of_cons in Hin as [->|Hin]; [lia|].
    apply StronglySorted_app_1_r, StronglySorted_cons in Hsorted as [Hall _].
    rewrite Forall_forall in Hall. specialize (Hall p Hin). simpl in Hall.
    rewrite (DepthFacts.depth_child h Hinv c p Hp) in Hall. lia.
Qed.

Lemma iteration_level_order_witness :
  exists l,
    Node__iter__ Scenario.rounding_final (start Scenario.rounding_planner) = Ok l /\
    S (length l) = length Scenario.rounding_final /\
    StronglySorted (fun a b => depth Scenario.rounding_final a
                               <= depth Scenario.rounding_final b) l /\
    (forall before c after p,
       l = before ++ c :: after -> parent (deref Scenario.rounding_final c) = Some p ->
       p ∈ before).
Proof.
  apply (iteration_level_order Scenario.rounding_planner Scenario.rounding_final).
  apply (snapshot_extend Scenario.rounding_planner Scenario.rounding_heap
           [1%float] 0 (Some 2) Scenario.rounding_final).
  - apply (snapshot_init Scenario.rounding_planner [0.1%float] [0.3%float]
             (PyList [0%float]) (PyList [2%float])). reflexivity.
  - reflexivity.
  - reflexivity.
Defined.

(** X4: the goal node stays on its own.  On every heap the planner
    goes through it has no parent and no children and is nobody's
    parent, so iterating over it yields the goal node alone, and
    [_trace_path_from_start] called without a node returns the list that
    holds the goal state and nothing else: no start state, no node of
    the tree. *)
Theorem goal_node_stays_alone (self : t) (h : heap) :
  snapshot self h ->
  parent (deref h (goal self)) = None /\
  children (deref h (goal self)) = [] /\
  (forall i, parent (deref h i) <> Some (goal self)) /\
  Node__iter__ h (goal self) = Ok [goal self] /\
  _trace_path_from_start self h None = Ok [state (deref h (goal self))].
Proof.
  intros (Hs & Hg & Hinv)%PlannerFacts.snapshot_consistent.
  pose proof (inv_size h Hinv) as Hsz.
  assert (parent (deref h (goal self)) = None) as Hpar.
  { destruct (parent (deref h (goal self))) as [p|] eqn:Hp; [|reflexivity].
    apply (inv_parent h Hinv) in Hp. rewrite Hg in Hp. tauto. }
  assert (forall i, parent (deref h i) <> Some (goal self)) as Hnone.
  { intros i Hp. apply (inv_parent h Hinv) in Hp. rewrite Hg in Hp. tauto. }
  assert (children (deref h (goal self)) = []) as Hch.
  { destruct (children (deref h (goal self))) as [|c cs] eqn:E; [reflexivity|].
    exfalso. apply (Hnone c). apply (inv_children h Hinv). rewrite E. left. }
  split; [exact Hpar|]. split; [exact Hch|]. split; [exact Hnone|]. split.
  - unfold Node__iter__. destruct (length h) as [|m]; [lia|].
    simpl. rewrite Hch. destruct m; reflexivity.
  - unfold _trace_path_from_start. destruct (length h) as [|m]; [lia|].
    simpl. rewrite Hpar, TraceFacts.trace_loop_None. reflexivity.
Qed.

Lemma goal_node_stays_alone_witness :
  snapshot Scenario.rounding_planner Scenario.rounding_final /\
  _trace_path_from_start Scenario.rounding_planner Scenario.rounding_final None
    = Ok [[0.3%float]].
Proof.
  assert (snapshot Scenario.rounding_planner Scenario.rounding_final) as Hsnap.
  { apply (snapshot_extend Scenario.rounding_planner Scenario.rounding_heap
             [1%float] 0 (Some 2) Scenario.rounding_final).
    - apply (snapshot_init Scenario.rounding_planner [0.1%float] [0.3%float]
               (PyList [0%float]) (PyList [2%float])). reflexivity.
    - reflexivity.
    - reflexivity. }
  split; [exact Hsnap|].
  apply (goal_node_stays_alone Scenario.rounding_planner Scenario.rounding_final Hsnap).
Defined.

(** X5: on every heap the planner goes through, tracing from any node
    of the tree (not only from the node [build] stops at) ends and gives
    the states along the parent references, start state first and the
    node's own state last; the path has one state more than the node's
    depth, fewer states than the heap has objects, and from the root it
    is the start state alone. *)
Theorem trace_from_any_node (self : t) (h : heap) (n : ref) :
  snapshot self h -> tree_node h n ->
  exists nodes path,
    _trace_path_from_start self h (Some n) = Ok path /\
    traced h n nodes path /\
    head path = Some (state (deref h (start self))) /\
    last path = Some (state (deref h n)) /\
    length path = S (depth h n) /\
    length path < length h /\
    (n = start self -> path = [state (deref h n)]).
Proof.
  intros (Hs & Hg & Hinv)%PlannerFacts.snapshot_consistent Hn.
  destruct (TraceFacts.trace_path_traced h Hinv self n Hn) as (nodes & path & Ht & Htr).
  exists nodes, path. split; [exact Ht|]. split; [exact Htr|].
  pose proof (PathFacts.traced_head h n nodes path Htr) as Hhead.
  pose proof (PathFacts.traced_last h n nodes path Htr) as Hlast.
  destruct Htr as (Hw & Hnd & Hroot & Hpath).
  pose proof (DepthFacts.walk_length h Hinv n nodes Hw) as Hlen.
  assert (length path = length nodes) as Hpl
    by (rewrite Hpath, length_reverse, length_fmap; reflexivity).
  rewrite Hs. split; [exact Hhead|]. split; [exact Hlast|].
  split; [congruence|]. split.
  - rewrite Hpl.
    assert (forall x, x ∈ nodes -> tree_node h x) as Hall.
    { clear Hnd Hroot Hpath Hlen Hpl Hhead Hlast Ht.
      induction Hw as [m Hm | m p l Hp Hw IH]; intros x Hx.
      - apply list_elem_of_singleton in Hx as ->. exact Hn.
      - apply elem_of_cons in Hx as [->|Hx]; [exact Hn|]. apply IH; [|exact Hx].
        pose proof (inv_parent h Hinv m p Hp) as (Hlt & Hpg & _).
        destruct Hn as [Hm _]. split; [lia|assumption]. }
    pose proof (IterFacts.tree_nodes_bounded h Hinv nodes Hnd Hall). lia.
  - intros E. destruct Hw as [m Hm | m p l Hp Hw].
    + rewrite Hpath. reflexivity.
    + apply (inv_parent h Hinv) in Hp. unfold root_ref in E. lia.
Qed.

Lemma trace_from_any_node_witness :
  exists nodes path,
    _trace_path_from_start Scenario.rounding_planner Scenario.rounding_final (Some 2)
      = Ok path /\
    traced Scenario.rounding_final 2 nodes path /\
    head path = Some (state (deref Scenario.rounding_final
                               (start Scenario.rounding_planner))) /\
    last path = Some (state (deref Scenario.rounding_final 2)) /\
    length path = S (depth Scenario.rounding_final 2) /\
    length path < length Scenario.rounding_final /\
    (2 = start Scenario.rounding_planner ->
     path = [state (deref Scenario.rounding_final 2)]).
Proof.
  apply (trace_from_any_node Scenario.rounding_planner Scenario.rounding_final 2).
  - apply (snapshot_extend Scenario.rounding_planner Scenario.rounding_heap
             [1%float] 0 (Some 2) Scenario.rounding_final).
    + apply (snapshot_init Scenario.rounding_planner [0.1%float] [0.3%float]
               (PyList [0%float]) (PyList [2%float])). reflexivity.
    + reflexivity.
    + reflexivity.
  - unfold tree_node, goal_ref, Scenario.rounding_final. simpl. lia.
Defined.

(** ** Sampling *)

Module SampleFacts.
Import AdaRRT.

Lemma uniform_unfold (low high : float) (g : Np.rng) :
  Np.uniform low high g =
    ((low + (high - low) * Np.stream g (Np.cursor g))%float,
     Np.mkRng (Np.stream g) (S (Np.cursor g))).
Proof. reflexivity. Qed.


Lemma uniform_size_spec (low high : float) (n : nat) :
  forall g,
  length (Np.uniform_size low high n g).1 = n /\
  Np.stream (Np.uniform_size low high n g).2 = Np.stream g /\
  Np.cursor (Np.uniform_size low high n g).2 = Np.cursor g + n /\
  forall i, i < n ->
    (Np.uniform_size low high n g).1 !! i
    = Some (low + (high - low) * Np.stream g (Np.cursor g + i))%float.
Proof.
  induction n as [|n IH]; intros g.
  - simpl. repeat split; lia.
  - cbn [Np.uniform_size]. rewrite uniform_unfold.
    destruct (IH (Np.mkRng (Np.stream g) (S (Np.cursor g)))) as (Hlen & Hst & Hcur & Hi).
    destruct (Np.uniform_size low high n _) as [xs g2]. simpl in *.
    split; [lia|]. split; [exact Hst|]. split; [lia|].
    intros [|i] Hlt; simpl.
    + rewrite Nat.add_0_r. reflexivity.
    + rewrite Nat.add_succ_r. apply (Hi i). lia.
Qed.

End SampleFacts.



(** X7: [_get_random_sample_near_goal] never raises.  The sample has the
    dimension of the goal state, takes one raw draw per entry, and entry
    [i] is the goal's entry plus [-0.05 + (0.05 - -0.05) * u]; the joint
    limits play no part in it. *)
Theorem near_goal_sample_entries (self : t) (h : heap) (g : Np.rng) :
  exists s,
    (_get_random_sample_near_goal self h g).1 = Ok s /\
    length s = length (state (deref h (goal self))) /\
    Np.stream (_get_random_sample_near_goal self h g).2 = Np.stream g /\
    Np.cursor (_get_random_sample_near_goal self h g).2
      = Np.cursor g + length (state (deref h (goal self))) /\
    (forall i x, state (deref h (goal self)) !! i = Some x ->
       s !! i = Some (x + (-0.05 + (0.05 - -0.05) * Np.stream g (Np.cursor g + i)))%float) /\
    (forall lo hi,
       _get_random_sample_near_goal (with_limits self lo hi) h g
       = _get_random_sample_near_goal self h g).
Proof.
  unfold _get_random_sample_near_goal. simpl.
  set (goal_state := state (deref h (goal self))).
  destruct (SampleFacts.uniform_size_spec (-0.05) 0.05 (length goal_state) g)
    as (Hlen & Hst & Hcur & Hi).
  destruct (Np.uniform_size (-0.05) 0.05 (length goal_state) g) as [jitter g'].
  simpl in *.
  destruct (DimensionFacts.broadcast_same PrimFloat.add goal_state jitter) as (E & Hl);
    [congruence|].
  exists (zip_with PrimFloat.add goal_state jitter). unfold Np.add. rewrite E.
  split; [reflexivity|]. split; [exact Hl|]. split; [exact Hst|]. split; [exact Hcur|].
  split; [|reflexivity].
  intros i x Hx.
  pose proof (lookup_zip_with PrimFloat.add goal_state jitter i) as Hz.
  assert (@lookup nat float (list float) _ i goal_state = Some x) as Hx' by exact Hx.
  assert (@lookup nat float (list float) _ i jitter = Some _) as Hj
    by (apply (Hi i); eapply lookup_lt_Some; exact Hx).
  rewrite Hx', Hj in Hz. exact Hz.
Qed.

Lemma near_goal_sample_entries_witness :
  exists s,
    (_get_random_sample_near_goal Scenario.rounding_planner Scenario.rounding_heap
       Scenario.halves).1 = Ok s /\
    s !! 0 = Some (0.3 + (-0.05 + (0.05 - -0.05) * 0.5))%float.
Proof.
  destruct (near_goal_sample_entries Scenario.rounding_planner Scenario.rounding_heap
              Scenario.halves) as (s & Hs & _ & _ & _ & Hi & _).
  exists s. split; [exact Hs|]. apply (Hi 0 0.3%float). reflexivity.
Defined.


(** ** More on the loop of [build] *)

Module LoopFacts.
Import AdaRRT HeapFacts IterFacts PlannerFacts TraceFacts BuildFacts DimensionFacts
  PathFacts FloatOrder.

Lemma walk_tree_nodes (h : heap) (n : ref) (nodes : list ref) :
  tree_inv h -> tree_node h n -> walk h n nodes -> forall x, x ∈ nodes -> tree_node h x.
Proof.
  intros Hinv Hn Hw. induction Hw as [m Hm | m p l Hp Hw IH]; intros x Hx.
  - apply list_elem_of_singleton in Hx as ->. exact Hn.
  - apply elem_of_cons in Hx as [->|Hx]; [exact Hn|]. apply IH; [|exact Hx].
    pose proof (inv_parent h Hinv m p Hp) as (Hlt & Hpg & _).
    destruct Hn as [Hm _]. split; [lia|assumption].
Qed.

Lemma min_from_strict {A : Type} (key : A -> outcome float) (l : list A) :
  forall best kbest r, min_from key best kbest l = Ok r ->
  r = best \/ exists kr, key r = Ok kr /\ flt kr kbest.
Proof.
  induction l as [|x l IH]; intros best kbest r; simpl.
  - intros [= ->]. left. reflexivity.
  - destruct (key x) as [kx| |] eqn:Ekx; simpl; try discriminate.
    destruct (kx <? kbest)%float eqn:Hlt.
    + intros [->|(kr & Ekr & Hkr)]%IH; right.
      * exists kx. split; assumption.
      * exists kr. split; [assumption|].
        eapply flt_fle_trans; [exact Hkr|]. apply flt_fle. exact Hlt.
    + apply IH.
Qed.

Section Loop.

Variable self : t.

Lemma attempt_length (h : heap) (sample : Np.ndarray) :
  length (attempt self h sample).2 <= S (length h).
Proof.
  unfold attempt.
  destruct (_get_nearest_neighbor self h sample) as [nb| |]; simpl; try lia.
  destruct (_extend_sample self h sample nb) as [[r h1]| |] eqn:Hext; simpl; try lia.
  assert (length h1 <= S (length h)) as Hlen.
  { apply extend_cases in Hext as (cand & _ & [(_ & _ & ->)|(_ & _ & ->)]); [lia|].
    rewrite add_child_length. lia. }
  destruct r; exact Hlen.
Qed.

(** The heap only grows, by at most one object per pass. *)
Lemma build_loop_length (k : nat) :
  forall h g e, snapshot self h ->
  length h <= length (final_heap (build_loop self k h g e)) /\
  length (final_heap (build_loop self k h g e)) + e
    <= length h + iterations (build_loop self k h g e).
Proof.
  induction k as [|k IH]; intros h g e Hsnap; simpl; [lia|].
  destruct (body_cases self h g) as (sample & g' & _ & ->).
  destruct sample as [sample| |]; simpl; try lia.
  pose proof (attempt_states self h sample (snapshot_consistent self h Hsnap)) as (Hge & _).
  pose proof (attempt_length h sample) as Hle.
  pose proof (attempt_snapshot self h sample Hsnap) as Hsnap'.
  destruct (attempt self h sample) as [[[path|]| |] h']; simpl in *; try lia.
  destruct (IH h' g' (S e) Hsnap'). lia.
Qed.



(** The termination check of a node looks at its state and the goal's. *)
Lemma completion_frame (h h' : heap) (i : ref) :
  state (deref h' i) = state (deref h i) ->
  state (deref h' (goal self)) = state (deref h (goal self)) ->
  _check_for_completion self h' i = _check_for_completion self h i.
Proof. intros Hi Hg. unfold _check_for_completion. rewrite Hi, Hg. reflexivity. Qed.

Lemma attempt_none_finished (h : heap) (sample : Np.ndarray) :
  snapshot self h -> none_finished self h (length h) ->
  match attempt self h sample with
  | (Ok None, h') => none_finished self h' (length h')
  | (Ok (Some _), h') => none_finished self h' (length h' - 1)
  | _ => True
  end.
Proof.
  intros Hsnap Hnone. pose proof (snapshot_consistent self h Hsnap) as Hcons.
  pose proof Hcons as (_ & Hg & Hinv). pose proof (inv_size h Hinv) as Hsz.
  unfold attempt.
  destruct (_get_nearest_neighbor self h sample) as [nb| |] eqn:Hnn; simpl; try exact I.
  pose proof (nearest_tree_node self h sample nb Hcons Hnn) as Hnb.
  destruct (_extend_sample self h sample nb) as [[r h1]| |] eqn:Hext; simpl; try exact I.
  destruct r as [t|].
  - destruct (extend_new_node self h sample nb t h1 Hcons Hnb Hext) as (-> & Hlen & _).
    assert (forall i, i < length h -> state (deref h1 i) = state (deref h i)) as Hst.
    { apply extend_cases in Hext as (cand & _ & [(_ & [=] & _)|(_ & _ & ->)]).
      intros i Hi. apply state_add_child_old; [apply Hnb|lia]. }
    assert (forall i, 2 <= i < length h -> _check_for_completion self h1 i = Ok false)
      as Hold.
    { intros i Hi. rewrite <- (Hnone i Hi). apply completion_frame.
      - apply Hst. lia.
      - apply Hst. rewrite Hg. unfold goal_ref. lia. }
    clear Hext.
    destruct (_check_for_completion self h1 (length h)) as [[]| |] eqn:Hc;
      cbn [obind]; try exact I.
    + destruct (_trace_path_from_start self h1 (Some (length h))) as [path| |];
        cbn [obind]; try exact I.
      intros i Hi. apply Hold. lia.
    + intros i Hi.
      destruct (decide (i = length h)) as [->|Hne]; [exact Hc|]. apply Hold. lia.
  - apply extend_cases in Hext as (cand & _ & [(_ & _ & ->)|(_ & [=] & _)]).
    exact Hnone.
Qed.

Lemma build_loop_none_finished (k : nat) :
  forall h g e, snapshot self h -> none_finished self h (length h) ->
  match result (build_loop self k h g e) with
  | Ok None =>
      none_finished self (final_heap (build_loop self k h g e))
        (length (final_heap (build_loop self k h g e)))
  | Ok (Some _) =>
      none_finished self (final_heap (build_loop self k h g e))
        (length (final_heap (build_loop self k h g e)) - 1)
  | _ => True
  end.
Proof.
  induction k as [|k IH]; intros h g e Hsnap Hnone; simpl; [exact Hnone|].
  destruct (body_cases self h g) as (sample & g' & _ & ->).
  destruct sample as [sample| |]; simpl; try exact I.
  pose proof (attempt_none_finished h sample Hsnap Hnone) as Hatt.
  pose proof (attempt_snapshot self h sample Hsnap) as Hsnap'.
  destruct (attempt self h sample) as [[[path|]| |] h']; simpl in *; try exact I.
  - exact Hatt.
  - apply IH; assumption.
Qed.

(** With matching dimensions the loop keeps them. *)
Lemma build_loop_dimension (n k : nat) :
  forall h g e, snapshot self h -> dimension self h n ->
  dimension self (final_heap (build_loop self k h g e)) n.
Proof.
  induction k as [|k IH]; intros h g e Hsnap Hdim; simpl; [exact Hdim|].
  apply snapshot_consistent in Hsnap as Hcons.
  destruct (body_cases self h g) as (sample & g' & Hd & ->).
  destruct (draw_dimension self n h g Hcons Hdim) as (s & Hs & Hlen).
  rewrite Hd in Hs. simpl in Hs. subst sample.
  destruct (attempt_dimension self n h s Hsnap Hdim Hlen) as (res & h' & Hatt & Hdim').
  rewrite Hatt. destruct res as [path|]; simpl; [exact Hdim'|].
  apply IH; [|assumption].
  eapply attempt_inv in Hatt as (Hsnap' & _); eassumption.
Qed.

End Loop.

End LoopFacts.

(** X9: [build] never removes or rewrites a node.  The heap it leaves
    holds the two objects of [__init__] and at most one more per pass it
    entered; the root still has the start state and the goal node the
    goal state; and a returned path has at most one state more than
    passes were entered. *)
Theorem build_grows_one_node_per_pass (s g : Np.ndarray) (lo hi : pyarg)
    (c : option (Np.ndarray -> bool)) (st pr : float) (it : Z) (self : t) (h0 : heap)
    (rng : Np.rng) :
  __init__ s g lo hi c st pr it = Ok (self, h0) ->
  let r := build self h0 rng in
  2 <= length (final_heap r) <= 2 + iterations r /\
  state (deref (final_heap r) (start self)) = s /\
  state (deref (final_heap r) (goal self)) = g /\
  (forall path, result r = Ok (Some path) -> length path <= S (iterations r)).
Proof.
  intros Hinit. pose proof (RunFacts.init_snapshot _ _ _ _ _ _ _ _ _ _ Hinit) as Hsnap.
  pose proof Hinit as (Hh0 & Hstart & Hgoal & _)%PlannerFacts.init_inv.
  pose proof (LoopFacts.build_loop_length self (Z.to_nat (max_iter self)) h0 rng 0 Hsnap)
    as (Hge & Hle).
  pose proof (PathFacts.build_loop_states self (Z.to_nat (max_iter self)) h0 rng 0 Hsnap)
    as Hst.
  pose proof (BuildFacts.build_loop_spec self (Z.to_nat (max_iter self)) h0 rng 0 Hsnap)
    as (Hfin & _ & Hres).
  unfold build. simpl.
  set (r := build_loop self (Z.to_nat (max_iter self)) h0 rng 0) in *.
  assert (length h0 = 2) as Hlen0 by (rewrite Hh0; reflexivity).
  split; [lia|]. split; [|split].
  - rewrite Hstart, Hst by (unfold root_ref; lia). rewrite Hh0. reflexivity.
  - rewrite Hgoal, Hst by (unfold goal_ref; lia). rewrite Hh0. reflexivity.
  - intros path Hpath. rewrite Hpath in Hres.
    destruct Hres as (terminal & nodes & Hsize & Hterm & _ & Htr).
    pose proof (PlannerFacts.snapshot_consistent self _ Hfin) as (_ & _ & Hinv).
    destruct Htr as (Hw & Hnd & _ & ->).
    rewrite length_reverse, length_fmap.
    assert (tree_node (final_heap r) terminal) as Hnode
      by (unfold tree_node, goal_ref; lia).
    pose proof (IterFacts.tree_nodes_bounded _ Hinv nodes Hnd
                  (LoopFacts.walk_tree_nodes _ _ _ Hinv Hnode Hw)). lia.
Qed.

Lemma build_grows_one_node_per_pass_witness :
  let r := build Scenario.rounding_planner Scenario.rounding_heap Scenario.halves in
  2 <= length (final_heap r) <= 2 + iterations r /\
  state (deref (final_heap r) (start Scenario.rounding_planner)) = [0.1%float] /\
  state (deref (final_heap r) (goal Scenario.rounding_planner)) = [0.3%float] /\
  (forall path, result r = Ok (Some path) -> length path <= S (iterations r)).
Proof.
  exact (build_grows_one_node_per_pass [0.1%float] [0.3%float]
           (PyList [0%float]) (PyList [2%float]) None 0.25 1 10000
           Scenario.rounding_planner Scenario.rounding_heap Scenario.halves eq_refl).
Defined.



(** X11: [build] stops at the first node within goal precision.  When it
    returns a path, no node created before the terminal one passes the
    termination check; when it returns [None], no node it created does. *)
Theorem build_stops_at_first_finished_node (s g : Np.ndarray) (lo hi : pyarg)
    (c : option (Np.ndarray -> bool)) (st pr : float) (it : Z) (self : t) (h0 : heap)
    (rng : Np.rng) :
  __init__ s g lo hi c st pr it = Ok (self, h0) ->
  let r := build self h0 rng in
  match result r with
  | Ok (Some _) =>
      _check_for_completion self (final_heap r) (length (final_heap r) - 1) = Ok true /\
      forall i, 2 <= i < length (final_heap r) - 1 ->
        _check_for_completion self (final_heap r) i = Ok false
  | Ok None =>
      forall i, 2 <= i < length (final_heap r) ->
        _check_for_completion self (final_heap r) i = Ok false
  | _ => True
  end.
Proof.
  intros Hinit. pose proof (RunFacts.init_snapshot _ _ _ _ _ _ _ _ _ _ Hinit) as Hsnap.
  pose proof Hinit as (Hh0 & _)%PlannerFacts.init_inv.
  assert (none_finished self h0 (length h0)) as Hnone
    by (intros i Hi; rewrite Hh0 in Hi; simpl in Hi; lia).
  pose proof (LoopFacts.build_loop_none_finished self (Z.to_nat (max_iter self))
                h0 rng 0 Hsnap Hnone) as H.
  pose proof (BuildFacts.build_loop_spec self (Z.to_nat (max_iter self)) h0 rng 0 Hsnap)
    as (_ & _ & Hres).
  unfold build. simpl.
  destruct (result (build_loop self (Z.to_nat (max_iter self)) h0 rng 0))
    as [[path|]| |]; try exact I.
  - destruct Hres as (terminal & nodes & Hlen & _ & Hc & _).
    split; [|exact H]. rewrite Hlen. simpl. rewrite Nat.sub_0_r. exact Hc.
  - exact H.
Qed.

Lemma build_stops_at_first_finished_node_witness :
  _check_for_completion Scenario.rounding_planner Scenario.rounding_final 2 = Ok true /\
  forall i, 2 <= i < 2 ->
    _check_for_completion Scenario.rounding_planner Scenario.rounding_final i = Ok false.
Proof.
  exact (build_stops_at_first_finished_node [0.1%float] [0.3%float]
           (PyList [0%float]) (PyList [2%float]) None 0.25 1 10000
           Scenario.rounding_planner Scenario.rounding_heap Scenario.halves eq_refl).
Defined.

(** X12: the search prefers the root.  On every heap the planner goes
    through, a node other than the root is returned only when its
    distance to the sample is strictly smaller than the root's; so a
    node whose distance is not a number is never returned, unless it is
    the root. *)
Theorem nearest_neighbor_beats_root (self : t) (h : heap) (sample : Np.ndarray) (r : ref) :
  snapshot self h ->
  _get_nearest_neighbor self h sample = Ok r ->
  r <> start self ->
  exists dr d0,
    distance_to h sample r = Ok dr /\
    distance_to h sample (start self) = Ok d0 /\
    flt dr d0 /\ number dr.
Proof.
  intros (Hs & _ & Hinv)%PlannerFacts.snapshot_consistent Hnn Hr.
  unfold _get_nearest_neighbor in Hnn. rewrite Hs in *.
  destruct (IterFacts.Node__iter__root h Hinv) as (l & Hiter & _).
  rewrite Hiter in Hnn. simpl in Hnn.
  destruct (distance_to h sample root_ref) as [d0| |] eqn:E0; simpl in Hnn;
    try discriminate.
  apply LoopFacts.min_from_strict in Hnn as [->|(dr & Edr & Hlt)]; [contradiction|].
  exists dr, d0. split; [exact Edr|]. split; [reflexivity|].
  split; [exact Hlt|]. exact (flt_number_l dr d0 Hlt).
Qed.

Lemma nearest_neighbor_beats_root_witness :
  exists dr d0,
    distance_to Scenario.rounding_final [0.3%float] 2 = Ok dr /\
    distance_to Scenario.rounding_final [0.3%float] (start Scenario.rounding_planner)
      = Ok d0 /\
    flt dr d0 /\ number dr.
Proof.
  apply (nearest_neighbor_beats_root Scenario.rounding_planner Scenario.rounding_final
           [0.3%float] 2).
  - apply (snapshot_extend Scenario.rounding_planner Scenario.rounding_heap
             [1%float] 0 (Some 2) Scenario.rounding_final).
    + apply (snapshot_init Scenario.rounding_planner [0.1%float] [0.3%float]
               (PyList [0%float]) (PyList [2%float])). reflexivity.
    + reflexivity.
    + reflexivity.
  - reflexivity.
  - discriminate.
Defined.

(** X13: when start state, goal state and both limit lists have the
    same number of entries, [build] keeps it: every object of the heap
    it leaves has that many entries in its state, and so has every state
    of a returned path. *)
Theorem build_keeps_dimension (s g : Np.ndarray) (lo hi : pyarg)
    (c : option (Np.ndarray -> bool)) (st pr : float) (it : Z) (self : t) (h0 : heap)
    (rng : Np.rng) (n : nat) :
  __init__ s g lo hi c st pr it = Ok (self, h0) ->
  length s = n -> length g = n ->
  length (lower_limits self) = n -> length (upper_limits self) = n ->
  let r := build self h0 rng in
  (forall i, i < length (final_heap r) -> length (state (deref (final_heap r) i)) = n) /\
  (forall path, result r = Ok (Some path) -> Forall (fun x => length x = n) path).
Proof.
  intros Hinit Hs Hg Hlo Hhi.
  pose proof (RunFacts.init_snapshot _ _ _ _ _ _ _ _ _ _ Hinit) as Hsnap.
  pose proof Hinit as (Hh0 & _)%PlannerFacts.init_inv.
  assert (dimension self h0 n) as Hdim.
  { split; [exact Hlo|]. split; [exact Hhi|]. rewrite Hh0.
    intros [|[|i]] Hi; simpl in *; (assumption || lia). }
  pose proof (LoopFacts.build_loop_dimension self n (Z.to_nat (max_iter self))
                h0 rng 0 Hsnap Hdim) as (_ & _ & Hall).
  pose proof (BuildFacts.build_loop_spec self (Z.to_nat (max_iter self)) h0 rng 0 Hsnap)
    as (Hfin & _ & Hres).
  unfold build. simpl. split; [exact Hall|].
  intros path Hpath. rewrite Hpath in Hres.
  destruct Hres as (terminal & nodes & Hsize & Hterm & _ & Htr).
  pose proof (PlannerFacts.snapshot_consistent self _ Hfin) as (_ & _ & Hinv).
  destruct Htr as (Hw & _ & _ & ->).
  apply Forall_forall. intros x Hx.
  apply elem_of_reverse, list_elem_of_fmap in Hx as (i & -> & Hi).
  apply Hall.
  assert (tree_node (final_heap (build_loop self (Z.to_nat (max_iter self)) h0 rng 0))
            terminal) as Hnode by (unfold tree_node, goal_ref; lia).
  apply (LoopFacts.walk_tree_nodes _ _ _ Hinv Hnode Hw i Hi).
Qed.

Lemma build_keeps_dimension_witness :
  let r := build Scenario.rounding_planner Scenario.rounding_heap Scenario.halves in
  (forall i, i < length (final_heap r) -> length (state (deref (final_heap r) i)) = 1) /\
  (forall path, result r = Ok (Some path) -> Forall (fun x => length x = 1) path).
Proof.
  exact (build_keeps_dimension [0.1%float] [0.3%float]
           (PyList [0%float]) (PyList [2%float]) None 0.25 1 10000
           Scenario.rounding_planner Scenario.rounding_heap Scenario.halves 1
           eq_refl eq_refl eq_refl eq_refl eq_refl).
Defined.

(** ** Iterating over any node *)

Module SubtreeFacts.
Import AdaRRT HeapFacts TraceFacts.

Section Subtree.

Variable h : heap.
Hypothesis Hinv : tree_inv h.
Variable n : ref.

Lemma bounded_nodup_length (l : list ref) :
  NoDup l -> (forall x, x ∈ l -> x < length h) -> length l <= length h.
Proof.
  intros Hnd Hall.
  assert (l ⊆+ seq 0 (length h)) as Hsub.
  { apply NoDup_submseteq; [assumption|]. intros x Hx%Hall. apply elem_of_seq. lia. }
  apply submseteq_length in Hsub. rewrite length_seq in Hsub. exact Hsub.
Qed.

Lemma subtree_inv_step (out rest : list ref) (x : ref) :
  subtree_inv h n out (x :: rest) ->
  subtree_inv h n (out ++ [x]) (rest ++ children (deref h x)).
Proof using Hinv.
  intros [Hnd Hnodes Hpar Hclosed].
  assert (x ∈ out ++ x :: rest) as Hxin by (apply elem_of_app; right; left).
  destruct (Hnodes x Hxin) as ([Hnx Hxh] & nodes_x & Hwx & Hnin).
  assert (forall c, c ∈ children (deref h x) -> c ∉ out ++ x :: rest) as Hfresh.
  { intros c Hc%(inv_children h Hinv) Hin.
    pose proof (inv_parent h Hinv c x Hc) as (Hlt & _).
    destruct (decide (c = n)) as [->|Hcn]; [lia|].
    destruct (Hpar c Hin Hcn) as (p & Hp & Hpin).
    assert (p = x) as -> by congruence.
    apply NoDup_app in Hnd as (_ & Hdisj & _). apply (Hdisj x Hpin). left. }
  split.
  - replace ((out ++ [x]) ++ rest ++ children (deref h x))
      with ((out ++ x :: rest) ++ children (deref h x))
      by (rewrite <- !app_assoc; reflexivity).
    apply NoDup_app. split; [assumption|]. split.
    + intros y Hy Hc. exact (Hfresh y Hc Hy).
    + apply (inv_children_nodup h Hinv).
  - intros y. rewrite <- app_assoc. simpl.
    rewrite elem_of_app, elem_of_cons, elem_of_app. intros [Hy|[->|[Hy|Hy]]].
    + apply Hnodes. apply elem_of_app. auto.
    + apply Hnodes. exact Hxin.
    + apply Hnodes. apply elem_of_app. right. right. assumption.
    + apply (inv_children h Hinv) in Hy as Hp.
      pose proof (inv_parent h Hinv y x Hp) as (Hlt & _).
      pose proof (parent_inside h y x Hp). split; [lia|].
      exists (y :: nodes_x). split; [econstructor; eassumption|]. right. exact Hnin.
  - intros c. rewrite <- app_assoc. simpl.
    rewrite elem_of_app, elem_of_cons, elem_of_app. intros Hc Hcn.
    assert (c ∈ out ++ x :: rest \/ c ∈ children (deref h x)) as [Hin|Hin].
    { rewrite elem_of_app, elem_of_cons. tauto. }
    + destruct (Hpar c Hin Hcn) as (p & Hp & Hpin). exists p. split; [exact Hp|].
      apply elem_of_app. auto.
    + apply (inv_children h Hinv) in Hin. exists x. split; [exact Hin|].
      apply elem_of_app. right. left.
  - intros c p. rewrite !elem_of_app, !list_elem_of_singleton. intros [Hp| ->] Hc.
    + pose proof (Hclosed c p Hp Hc) as Hin.
      apply elem_of_app in Hin as [Hin|Hin]; [tauto|].
      apply elem_of_cons in Hin as [->|Hin]; tauto.
    + right. right. apply (inv_children h Hinv). assumption.
Qed.

Lemma iter_loop_subtree (fuel : nat) :
  forall out q, subtree_inv h n out q -> length h <= fuel + length out ->
  exists l, iter_loop fuel h q = Ok l /\ subtree_inv h n (out ++ l) [] /\
            (forall x, x ∈ q -> x ∈ l).
Proof using Hinv.
  induction fuel as [|fuel IH]; intros out q HJ Hfuel.
  - destruct q as [|x rest].
    + exists []. simpl. rewrite app_nil_r. split; [reflexivity|]. split; [assumption|].
      intros x Hx. inversion Hx.
    + exfalso.
      pose proof (bounded_nodup_length _ (si_nodup _ _ _ _ HJ)
                    (fun y Hy => proj2 (proj1 (si_nodes _ _ _ _ HJ y Hy)))) as Hb.
      rewrite length_app in Hb. simpl in *. lia.
  - destruct q as [|x rest].
    + exists []. simpl. rewrite app_nil_r. split; [reflexivity|]. split; [assumption|].
      intros x Hx. inversion Hx.
    + destruct (IH (out ++ [x]) (rest ++ children (deref h x)) (subtree_inv_step _ _ _ HJ))
        as (l & Hl & HJ' & Hsub).
      { rewrite length_app. simpl. lia. }
      exists (x :: l). simpl. rewrite Hl. simpl. split; [reflexivity|]. split.
      * rewrite <- app_assoc in HJ'. exact HJ'.
      * intros y [->|Hy]%elem_of_cons; [left|]. right. apply Hsub, elem_of_app. auto.
Qed.

(** Iterating over a node yields the nodes that descend from it, each
    once, the node itself first. *)
Lemma Node__iter__subtree :
  n < length h ->
  exists l, Node__iter__ h n = Ok (n :: l) /\ NoDup (n :: l) /\
            (forall x, x ∈ n :: l <-> descends h n x).
Proof using Hinv.
  intros Hn.
  assert (subtree_inv h n [] [n]) as HJ.
  { split; simpl.
    - apply NoDup_singleton.
    - intros x ->%list_elem_of_singleton. split; [lia|].
      destruct (trace_loop_walk h Hinv (S n) n) as (nodes & Hw & _); [lia|].
      exists nodes. split; [exact Hw|]. apply walk_head in Hw as (l & ->). left.
    - intros c ->%list_elem_of_singleton Hc. contradiction.
    - intros c p Hp. inversion Hp. }
  destruct (iter_loop_subtree (length h) [] [n] HJ) as (l & Hl & HJ' & _); [simpl; lia|].
  unfold Node__iter__. simpl in HJ'.
  destruct HJ' as [Hnd Hnodes _ Hclosed]. rewrite app_nil_r in Hnd.
  setoid_rewrite app_nil_r in Hnodes. setoid_rewrite app_nil_r in Hclosed.
  destruct (length h) as [|m] eqn:Em; [lia|]. simpl in Hl.
  destruct (iter_loop m h (children (deref h n))) as [l'| |] eqn:E;
    simpl in Hl; try discriminate.
  injection Hl as <-. exists l'. simpl. rewrite E. simpl.
  split; [reflexivity|]. split; [exact Hnd|].
  intros x. split; [intros Hx; apply (Hnodes x Hx)|].
  intros (nodes & Hw & Hin). clear E Hnodes.
  induction Hw as [x Hx | x p l Hp Hw IH].
  - apply list_elem_of_singleton in Hin as ->. left.
  - apply elem_of_cons in Hin as [->|Hin]; [left|].
    exact (Hclosed x p (IH Hin) Hp).
Qed.

End Subtree.

End SubtreeFacts.

(** X14: iterating over any object of a heap the planner goes through
    (the root, an inner node, a leaf, the goal node) ends and yields the
    object first and then exactly the nodes that descend from it, each
    once, level by level. *)
Theorem iteration_yields_subtree (self : t) (h : heap) (n : ref) :
  snapshot self h -> n < length h ->
  exists l,
    Node__iter__ h n = Ok (n :: l) /\
    NoDup (n :: l) /\
    (forall x, x ∈ n :: l <-> descends h n x) /\
    StronglySorted (fun a b => depth h a <= depth h b) (n :: l).
Proof.
  intros (_ & _ & Hinv)%PlannerFacts.snapshot_consistent Hn.
  destruct (SubtreeFacts.Node__iter__subtree h Hinv n Hn) as (l & Hiter & Hnd & Hl).
  exists l. split; [exact Hiter|]. split; [exact Hnd|]. split; [exact Hl|].
  apply (LevelFacts.iter_loop_levels h Hinv (length h) [n] (n :: l)); [|exact Hiter].
  split; [repeat constructor|].
  intros a b ->%list_elem_of_singleton ->%list_elem_of_singleton. lia.
Qed.

Lemma iteration_yields_subtree_witness :
  exists l,
    Node__iter__ Scenario.rounding_final 2 = Ok (2 :: l) /\
    NoDup (2 :: l) /\
    (forall x, x ∈ 2 :: l <-> descends Scenario.rounding_final 2 x) /\
    StronglySorted (fun a b => depth Scenario.rounding_final a
                               <= depth Scenario.rounding_final b) (2 :: l).
Proof.
  apply (iteration_yields_subtree Scenario.rounding_planner Scenario.rounding_final 2).
  - apply (snapshot_extend Scenario.rounding_planner Scenario.rounding_heap
             [1%float] 0 (Some 2) Scenario.rounding_final).
    + apply (snapshot_init Scenario.rounding_planner [0.1%float] [0.3%float]
               (PyList [0%float]) (PyList [2%float])). reflexivity.
    + reflexivity.
    + reflexivity.
  - simpl. lia.
Defined.

(** ** Order of the children *)

Module ChildrenFacts.
Import AdaRRT HeapFacts PlannerFacts.

Lemma children_sorted_add_child (h : heap) (nb : ref) (cand : Np.ndarray) :
  tree_inv h -> nb < length h ->
  (forall p, StronglySorted lt (children (deref h p))) ->
  forall p, StronglySorted lt (children (deref (add_child h nb cand).2 p)).
Proof.
  intros Hinv Hnb Hsorted p. rewrite deref_add_child by assumption.
  destruct (decide (p = length h)); simpl; [constructor|].
  destruct (decide (p = nb)) as [->|]; simpl; [|apply Hsorted].
  apply StronglySorted_app. split; [|split; [apply Hsorted|repeat constructor]].
  intros c x Hc ->%list_elem_of_singleton.
  apply (inv_children h Hinv), parent_inside in Hc. exact Hc.
Qed.

Lemma snapshot_children_sorted (self : t) (h : heap) :
  snapshot self h -> forall p, StronglySorted lt (children (deref h p)).
Proof.
  induction 1 as [s g lo hi h Hinit | h sample nb r h' Hsnap IH Hnn Hext].
  - apply init_inv in Hinit as (-> & _). intros [|[|p]]; simpl; constructor.
  - apply snapshot_consistent in Hsnap as Hcons.
    pose proof (nearest_tree_node self h sample nb Hcons Hnn) as [Hnb _].
    apply extend_cases in Hext as (cand & _ & [(_ & _ & ->)|(_ & _ & ->)]); [exact IH|].
    apply children_sorted_add_child; [apply Hcons|assumption|exact IH].
Qed.

End ChildrenFacts.

(** X15: on every heap the planner goes through, the children list of a
    node holds its children in the order in which they were created:
    the references in it increase strictly, and each is younger than the
    node itself. *)
Theorem children_in_creation_order (self : t) (h : heap) (p : ref) :
  snapshot self h ->
  StronglySorted lt (children (deref h p)) /\
  (forall c, c ∈ children (deref h p) -> p < c < length h).
Proof.
  intros Hsnap. split; [apply (ChildrenFacts.snapshot_children_sorted self h Hsnap)|].
  intros c Hc.
  pose proof (PlannerFacts.snapshot_consistent self h Hsnap) as (_ & _ & Hinv).
  apply (inv_children h Hinv) in Hc.
  pose proof (inv_parent h Hinv c p Hc) as (Hlt & _).
  pose proof (HeapFacts.parent_inside h c p Hc). lia.
Qed.

Lemma children_in_creation_order_witness :
  StronglySorted lt (children (deref Scenario.rounding_final 0)) /\
  (forall c, c ∈ children (deref Scenario.rounding_final 0) ->
     0 < c < length Scenario.rounding_final).
Proof.
  apply (children_in_creation_order Scenario.rounding_planner Scenario.rounding_final 0).
  apply (snapshot_extend Scenario.rounding_planner Scenario.rounding_heap
           [1%float] 0 (Some 2) Scenario.rounding_final).
  - apply (snapshot_init Scenario.rounding_planner [0.1%float] [0.3%float]
             (PyList [0%float]) (PyList [2%float])). reflexivity.
  - reflexivity.
  - reflexivity.
Defined.

(** ** Ties in the nearest-neighbour search *)

Module TieFacts.
Import FloatOrder.

Lemma flt_irrefl (x : float) : ~ flt x x.
Proof.
  unfold flt. rewrite FloatAxioms.ltb_spec. unfold SFltb.
  destruct (Prim2SF x) as [[]|[]| |[] m e] eqn:E; simpl; try discriminate.
  all: rewrite Z.compare_refl;
    change (PosDef.Pos.compare_cont Eq m m) with (Pos.compare m m);
    rewrite Pos.compare_refl; discriminate.
Qed.

Lemma flt_not_fle (x y : float) : flt x y -> ~ fle y x.
Proof. intros Hlt Hle. exact (flt_irrefl x (flt_fle_trans x y x Hlt Hle)). Qed.

End TieFacts.

(** X16: ties go to the node nearer the root.  Take a heap the planner
    can be in and a sample whose distance to every node of the tree is a
    number: no node of the tree at most as far from the sample as the
    returned node is less deep than the returned node. *)
Theorem nearest_neighbor_ties_prefer_shallow (self : t) (h : heap) (sample : Np.ndarray)
    (r : ref) :
  snapshot self h ->
  (forall x, tree_node h x -> exists d, distance_to h sample x = Ok d /\ number d) ->
  _get_nearest_neighbor self h sample = Ok r ->
  forall x dx dr,
    tree_node h x ->
    distance_to h sample x = Ok dx -> distance_to h sample r = Ok dr ->
    fle dx dr -> depth h r <= depth h x.
Proof.
  intros Hsnap Hkeys Hnn x dx dr Hx Edx Edr Hle.
  pose proof (PlannerFacts.snapshot_consistent self h Hsnap) as (Hs & _ & Hinv).
  destruct (IterFacts.Node__iter__root h Hinv) as (l & Hiter & _ & Hl).
  pose proof (LevelFacts.Node__iter__levels h Hinv _ Hiter) as Hsorted.
  assert (keyed (distance_to h sample) (root_ref :: l)) as Hk
    by (intros y Hy%Hl; apply Hkeys; exact Hy).
  destruct (MinFacts.py_min_spec (distance_to h sample) (root_ref :: l))
    as (r' & dr' & before & after & Hmin & Hsplit & Hr & _ & Hbefore & _);
    [discriminate|exact Hk|].
  unfold _get_nearest_neighbor in Hnn. rewrite Hs, Hiter in Hnn. simpl in Hnn.
  assert (r' = r) as -> by (simpl in Hmin; congruence).
  assert (dr' = dr) as -> by congruence.
  apply Hl in Hx. rewrite Hsplit in Hx, Hsorted.
  apply elem_of_app in Hx as [Hx|Hx].
  - exfalso. exact (TieFacts.flt_not_fle dr dx (Hbefore x dx Hx Edx) Hle).
  - apply elem_of_cons in Hx as [->|Hx]; [lia|].
    apply StronglySorted_app_1_r, StronglySorted_cons in Hsorted as [Hall _].
    rewrite Forall_forall in Hall. exact (Hall x Hx).
Qed.

Lemma nearest_neighbor_ties_prefer_shallow_witness :
  _get_nearest_neighbor Scenario.rounding_planner Scenario.rounding_final [0.1%float]
    = Ok 0 /\
  (forall x dx dr,
     tree_node Scenario.rounding_final x ->
     distance_to Scenario.rounding_final [0.1%float] x = Ok dx ->
     distance_to Scenario.rounding_final [0.1%float] 0 = Ok dr ->
     fle dx dr ->
     depth Scenario.rounding_final 0 <= depth Scenario.rounding_final x).
Proof.
  split; [reflexivity|].
  apply (nearest_neighbor_ties_prefer_shallow Scenario.rounding_planner
           Scenario.rounding_final [0.1%float] 0).
  - apply (snapshot_extend Scenario.rounding_planner Scenario.rounding_heap
             [1%float] 0 (Some 2) Scenario.rounding_final).
    + apply (snapshot_init Scenario.rounding_planner [0.1%float] [0.3%float]
               (PyList [0%float]) (PyList [2%float])). reflexivity.
    + reflexivity.
    + reflexivity.
  - intros x [Hx Hg]. unfold goal_ref, Scenario.rounding_final in *. simpl in Hx.
    destruct x as [|[|[|x]]]; try lia; eexists; split; reflexivity.
  - reflexivity.
Defined.
